(** * Contracting recurrent equilibrium network (continuous time)

    A shallow embedding of [ren_continuous.py] (class [CREN]) and the
    properties of its stability projector [update_model_param], of the
    implicit layer solved row by row in [forward], and of the helpers of
    [forward_trajectory].

    Tensors of floats are idealised as matrices over an arbitrary real field
    [R]; the activation [nn.Tanh()] is the field [act] of the object, as in
    the source, and every result below holds for any activation.  A 2-D
    tensor of shape (r, c) is an ['M[R]_(r, c)], a 1-D tensor of shape (c) is
    a row ['rV[R]_c].  Shapes that torch only checks when the code runs
    (the hard-coded input width, the batch dimension of a 3-D state) are
    followed in section [Shapes].  The control flow of the training loop of
    [ren_training.py] and of the script [train.py] comes last, with their
    collaborators as parameters. *)

From HB Require Import structures.
From Stdlib Require Import String.
From mathcomp Require Import boot order algebra.
From mathcomp Require Import ring_tactic field_tactic arithmetic_tactic.

Set Implicit Arguments.
Unset Strict Implicit.
Unset Printing Implicit Defensive.

Import Order.TTheory GRing.Theory Num.Theory.
Local Open Scope ring_scope.

(** ** A state and exception monad

    A method of the object either returns a value or raises, and in both
    cases leaves the object in the state reached so far. *)

Module Method.

Definition t (S A : Type) : Type := S -> option A * S.

Definition ret {S A} (a : A) : t S A := fun s => (Some a, s).

Definition raise {S A} : t S A := fun s => (None, s).

Definition bind {S A B} (c : t S A) (k : A -> t S B) : t S B :=
  fun s => let: (r, s') := c s in
           if r is Some a then k a s' else (None, s').

Definition get {S} : t S S := fun s => (Some s, s).

Definition modify {S} (f : S -> S) : t S unit := fun s => (Some tt, f s).

(** A library call that may raise. *)
Definition lift {S A} (r : option A) : t S A := fun s => (r, s).

End Method.

Declare Scope method_scope.
Delimit Scope method_scope with method.
Notation "v <- c ;; k" := (Method.bind c (fun v => k))
  (at level 61, c at next level, right associativity) : method_scope.
Notation "c ;; k" := (Method.bind c (fun _ => k))
  (at level 61, right associativity) : method_scope.

(** Sequencing of calls that return a value or raise. *)
Notation "v <-- c ; k" := (obind (fun v => k) c)
  (at level 61, c at next level, right associativity) : method_scope.

(** ** The torch operations the class uses *)

Section Torch.

Variable R : realFieldType.

(** [F.linear(input, weight)] is [input @ weight^T]. *)
Definition linear {r k o} (input : 'M[R]_(r, k)) (weight : 'M[R]_(o, k)) :
  'M[R]_(r, o) := input *m weight^T.

(** [F.linear] where the two inner sizes are only known to agree when the
    call runs: a mismatch raises. *)
Definition linear_dyn {r k o k'} (input : 'M[R]_(r, k))
    (weight : 'M[R]_(o, k')) : option 'M[R]_(r, o) :=
  match k =P k' with
  | ReflectT e => Some (linear (castmx (erefl r, e) input) weight)
  | ReflectF _ => None
  end.

(** [torch.eye(n)], [torch.zeros(r, c)], [torch.ones(r, c)]. *)
Definition eye n : 'M[R]_n := 1%:M.
Definition zeros r c : 'M[R]_(r, c) := const_mx 0.
Definition ones r c : 'M[R]_(r, c) := const_mx 1.

(** [torch.split(M, (a, b), dim=0)] and [dim=1]. *)
Definition split0 {a b c} (M : 'M[R]_(a + b, c)) := (usubmx M, dsubmx M).
Definition split1 {a b c} (M : 'M[R]_(c, a + b)) := (lsubmx M, rsubmx M).

(** [torch.diagonal(M)] and [torch.diag_embed(d)]. *)
Definition diagonal {n} (M : 'M[R]_n) : 'rV[R]_n := \row_i M i i.
Definition diag_embed {n} (d : 'rV[R]_n) : 'M[R]_n := diag_mx d.

(** [torch.tril(M, k)] keeps the entries with [j - i <= k]. *)
Definition tril {n} (M : 'M[R]_n) (k : int) : 'M[R]_n :=
  \matrix_(i, j) (if ((j : nat)%:Z <= (i : nat)%:Z + k)%R then M i j else 0).

(** [torch.inverse(M)] raises on a singular matrix. *)
Definition inverse {n} (M : 'M[R]_n) : option 'M[R]_n :=
  if M \in unitmx then Some (invmx M) else None.

(** [M[i, :]]: a row as a 1-D tensor; raises when [i] is out of range. *)
Definition getrow {r c} (M : 'M[R]_(r, c)) (i : nat) : option 'rV[R]_c :=
  if insub i is Some k then Some (row k M) else None.

(** [M[i, j] = a] on a copy of [M]; raises when out of range. *)
Definition setitem {r c} (M : 'M[R]_(r, c)) (i j : nat) (a : R) :
  option 'M[R]_(r, c) :=
  match insub i, insub j with
  | Some k, Some l =>
      Some (\matrix_(k', l') (if (k' == k) && (l' == l) then a else M k' l'))
  | _, _ => None
  end.

(** A 1-D tensor of shape (1) times or plus a 1-D tensor of shape (b):
    broadcasting. *)
Definition bmul {b} (s : 'rV[R]_1) (v : 'rV[R]_b) : 'rV[R]_b := s 0 0 *: v.
Definition badd {b} (v : 'rV[R]_b) (s : 'rV[R]_1) : 'rV[R]_b :=
  v + const_mx (s 0 0).

(** [M + r] for [M] of shape (b, c) and [r] of shape (1, c). *)
Definition badd_rows {b c} (M : 'M[R]_(b, c)) (r : 'rV[R]_c) : 'M[R]_(b, c) :=
  M + \matrix_(i, j) r 0 j.

(** [F.linear(input, w)] with a 1-D weight drops the last dimension. *)
Definition linear1 {b k} (input : 'M[R]_(b, k)) (w : 'rV[R]_k) : 'rV[R]_b :=
  (linear input w)^T.

Definition linear1_dyn {b k k'} (input : 'M[R]_(b, k)) (w : 'rV[R]_k') :
  option 'rV[R]_b :=
  omap trmx (linear_dyn input w).

(** [v.unsqueeze(1)] on a 1-D tensor of shape (b): shape (b, 1). *)
Definition unsqueeze1 {b} (v : 'rV[R]_b) : 'cV[R]_b := v^T.

(** Squared Euclidean norm of a 1-D tensor. *)
Definition sqnorm {n} (v : 'rV[R]_n) : R := \sum_k (v 0 k) ^+ 2.

End Torch.

(** ** The class [CREN] *)

Section Model.

Variable R : realFieldType.

(** The dimensions are fixed at construction: input [dim_in], output
    [dim_out], state [dim_x], implicit layer [dim_v]. *)
Variables dim_in dim_out dim_x dim_v : nat.

(** The attributes of the object, in the order [__init__] sets them.  The
    internal state [x] has shape (b, 1, dim_x) for a batch of [b]. *)
Record CREN : Type := {
  batch_size : nat;
  horizon : option nat;
  device : string;
  linear_output : bool;
  contraction_rate_lb : R;
  add_bias : bool;
  act : R -> R;
  x : {b : nat & 'M[R]_(b, dim_x)};
  weight_init_std : R;
  Pstar : 'M[R]_(dim_x, dim_x);
  Chi : 'M[R]_(dim_x, dim_v);
  X : 'M[R]_(dim_x + dim_v, dim_x + dim_v);
  Y1 : 'M[R]_(dim_x, dim_x);
  B2 : 'M[R]_(dim_x, dim_in);
  D12 : 'M[R]_(dim_v, dim_in);
  C2 : 'M[R]_(dim_out, dim_x);
  D21 : 'M[R]_(dim_out, dim_v);
  D22 : 'M[R]_(dim_out, dim_in);
  bx : 'M[R]_(dim_x, 1);
  bv : 'M[R]_(dim_v, 1);
  by_ : 'M[R]_(dim_out, 1);
  epsilon : R;
  A : 'M[R]_(dim_x, dim_x);
  D11 : 'M[R]_(dim_v, dim_v);
  C1 : 'M[R]_(dim_v, dim_x);
  B1 : 'M[R]_(dim_x, dim_v);
  P : 'M[R]_(dim_x, dim_x)
}.

(** Attribute assignments [self.P = ...], [self.A = ...] and so on. *)
Definition set_P v (s : CREN) : CREN :=
  let: Build_CREN a1 a2 a3 a4 a5 a6 a7 a8 a9 a10 a11 a12 a13 a14 a15 a16 a17
         a18 a19 a20 a21 a22 a23 a24 a25 a26 _ := s in
  Build_CREN a1 a2 a3 a4 a5 a6 a7 a8 a9 a10 a11 a12 a13 a14 a15 a16 a17
    a18 a19 a20 a21 a22 a23 a24 a25 a26 v.

Definition set_A v (s : CREN) : CREN :=
  let: Build_CREN a1 a2 a3 a4 a5 a6 a7 a8 a9 a10 a11 a12 a13 a14 a15 a16 a17
         a18 a19 a20 a21 a22 _ a24 a25 a26 a27 := s in
  Build_CREN a1 a2 a3 a4 a5 a6 a7 a8 a9 a10 a11 a12 a13 a14 a15 a16 a17
    a18 a19 a20 a21 a22 v a24 a25 a26 a27.

Definition set_D11 v (s : CREN) : CREN :=
  let: Build_CREN a1 a2 a3 a4 a5 a6 a7 a8 a9 a10 a11 a12 a13 a14 a15 a16 a17
         a18 a19 a20 a21 a22 a23 _ a25 a26 a27 := s in
  Build_CREN a1 a2 a3 a4 a5 a6 a7 a8 a9 a10 a11 a12 a13 a14 a15 a16 a17
    a18 a19 a20 a21 a22 a23 v a25 a26 a27.

Definition set_C1 v (s : CREN) : CREN :=
  let: Build_CREN a1 a2 a3 a4 a5 a6 a7 a8 a9 a10 a11 a12 a13 a14 a15 a16 a17
         a18 a19 a20 a21 a22 a23 a24 _ a26 a27 := s in
  Build_CREN a1 a2 a3 a4 a5 a6 a7 a8 a9 a10 a11 a12 a13 a14 a15 a16 a17
    a18 a19 a20 a21 a22 a23 a24 v a26 a27.

Definition set_B1 v (s : CREN) : CREN :=
  let: Build_CREN a1 a2 a3 a4 a5 a6 a7 a8 a9 a10 a11 a12 a13 a14 a15 a16 a17
         a18 a19 a20 a21 a22 a23 a24 a25 _ a27 := s in
  Build_CREN a1 a2 a3 a4 a5 a6 a7 a8 a9 a10 a11 a12 a13 a14 a15 a16 a17
    a18 a19 a20 a21 a22 a23 a24 a25 v a27.

Definition set_x v (s : CREN) : CREN :=
  let: Build_CREN a1 a2 a3 a4 a5 a6 a7 _ a9 a10 a11 a12 a13 a14 a15 a16 a17
         a18 a19 a20 a21 a22 a23 a24 a25 a26 a27 := s in
  Build_CREN a1 a2 a3 a4 a5 a6 a7 v a9 a10 a11 a12 a13 a14 a15 a16 a17
    a18 a19 a20 a21 a22 a23 a24 a25 a26 a27.

Local Open Scope method_scope.

(** *** [update_model_param]

    The local variables of the method, each as the source computes it. *)

Definition local_P (self : CREN) : 'M[R]_dim_x :=
  2^-1 *: linear (Pstar self) (Pstar self) + epsilon self *: eye R dim_x.

Definition local_H (self : CREN) : 'M[R]_(dim_x + dim_v) :=
  linear (X self) (X self) + epsilon self *: eye R (dim_x + dim_v).

Definition local_H1 self : 'M[R]_(dim_x, dim_x) :=
  (split1 (split0 (local_H self)).1).1.
Definition local_H2 self : 'M[R]_(dim_x, dim_v) :=
  (split1 (split0 (local_H self)).1).2.
Definition local_H3 self : 'M[R]_(dim_v, dim_x) :=
  (split1 (split0 (local_H self)).2).1.
Definition local_H4 self : 'M[R]_(dim_v, dim_v) :=
  (split1 (split0 (local_H self)).2).2.

Definition local_Y (self : CREN) : 'M[R]_dim_x :=
  (- 2^-1) *: (local_H1 self + contraction_rate_lb self *: local_P self
               + Y1 self - (Y1 self)^T).

Definition local_Lambda (self : CREN) : 'M[R]_dim_v :=
  2^-1 *: diag_embed (diagonal (local_H4 self)).

Definition local_Z (self : CREN) : 'M[R]_(dim_x, dim_v) :=
  - local_H2 self - Chi self.

Definition update_model_param : Method.t CREN unit :=
  self <- Method.get ;;
  let P := local_P self in
  Method.modify (set_P P) ;;
  let H4 := local_H4 self in
  let Y := local_Y self in
  let Lambda := local_Lambda self in
  iP <- Method.lift (inverse P) ;;
  Method.modify (set_A (linear iP Y^T)) ;;
  iL <- Method.lift (inverse Lambda) ;;
  Method.modify (set_D11 (- linear iL (tril H4 (-1))^T)) ;;
  iL' <- Method.lift (inverse Lambda) ;;
  Method.modify (set_C1 (linear iL' (Chi self))) ;;
  let Z := local_Z self in
  iP' <- Method.lift (inverse P) ;;
  Method.modify (set_B1 (linear iP' Z^T)).

(** *** [forward]

    [forward] reads the object and assigns no attribute: it is a function of
    [self] that returns a value or raises.

    Lines 136 to 149, the feedback vector [w], as a function of the local
    variables [u], of shape (1, k), and [x], of shape (b, dim_x).  Row 0 is
    computed before the loop, without the [D11] term. *)

Definition forward_w_first {b k} (self : CREN) (u : 'M[R]_(1, k))
    (xs : 'M[R]_(b, dim_x)) : option 'M[R]_(b, dim_v) :=
  vec <-- setitem (zeros R dim_v 1) 0 0 1 ;
  let w := zeros R b dim_v in
  c1 <-- getrow (C1 self) 0 ;
  bv0 <-- getrow (bv self) 0 ;
  d12 <-- getrow (D12 self) 0 ;
  lu <-- linear1_dyn u d12 ;
  let v := unsqueeze1 (badd (linear1 xs c1 + bmul bv0 (ones R 1 b)) lu) in
  Some (w + linear (map_mx (act self) v) vec).

(** The body of [for i in range(1, self.dim_v)]. *)
Definition forward_w_body {b k} (self : CREN) (u : 'M[R]_(1, k))
    (xs : 'M[R]_(b, dim_x)) (w : 'M[R]_(b, dim_v)) (i : nat) :
    option 'M[R]_(b, dim_v) :=
  vec <-- setitem (zeros R dim_v 1) i 0 1 ;
  c1 <-- getrow (C1 self) i ;
  d11 <-- getrow (D11 self) i ;
  bvi <-- getrow (bv self) i ;
  d12 <-- getrow (D12 self) i ;
  lu <-- linear1_dyn u d12 ;
  let v := unsqueeze1 (badd (linear1 xs c1 + linear1 w d11
                             + bmul bvi (ones R 1 b)) lu) in
  Some (w + linear (map_mx (act self) v) vec).

Definition forward_w {b k} (self : CREN) (u : 'M[R]_(1, k))
    (xs : 'M[R]_(b, dim_x)) : option 'M[R]_(b, dim_v) :=
  foldl (fun ow i => w <-- ow ; forward_w_body self u xs w i)
        (forward_w_first self u xs) (iota 1 (dim_v - 1)).

(** The scalar equation of row [i] for batch element [r], as the
    specification writes it:
    [v_i = C1[i,:] @ x + sum_{j<i} D11[i,j] * w_j + D12[i,:] @ u + bv[i]]. *)
Definition row_equation {b} (self : CREN) (u : 'M[R]_(1, dim_in))
    (xs : 'M[R]_(b, dim_x)) (w : 'M[R]_(b, dim_v)) (r : 'I_b)
    (i : 'I_dim_v) : R :=
  \sum_j C1 self i j * xs r j
  + \sum_(l < dim_v | (l < i)%N) D11 self i l * w r l
  + \sum_j D12 self i j * u 0 j
  + bv self i 0.

(** The argument of the activation as the loop body computes it: the
    [D11] term runs over every column of [w]. *)
Definition body_arg {b} (self : CREN) (u : 'M[R]_(1, dim_in))
    (xs : 'M[R]_(b, dim_x)) (w : 'M[R]_(b, dim_v)) (r : 'I_b)
    (i : 'I_dim_v) : R :=
  \sum_j C1 self i j * xs r j + \sum_l D11 self i l * w r l
  + \sum_j D12 self i j * u 0 j + bv self i 0.

(** The loop invariant after the rows before [k]: these columns of [w]
    satisfy their row equation, the others are still zero. *)
Definition solved {b} (self : CREN) (u : 'M[R]_(1, dim_in))
    (xs : 'M[R]_(b, dim_x)) (k : nat) (w : 'M[R]_(b, dim_v)) : Prop :=
  (forall r (j : 'I_dim_v), (j < k)%N ->
     w r j = act self (row_equation self u xs w r j))
  /\ (forall r (j : 'I_dim_v), (k <= j)%N -> w r j = 0).

(** The right-hand side of the implicit equation
    [w = act (C1 x + D11 w + D12 u + bv)], one row per batch element. *)
Definition implicit_rhs {b} (self : CREN) (u : 'M[R]_(1, dim_in))
    (xs : 'M[R]_(b, dim_x)) (w : 'M[R]_(b, dim_v)) : 'M[R]_(b, dim_v) :=
  map_mx (act self)
    (xs *m (C1 self)^T + w *m (D11 self)^T
     + ones R b 1 *m (u *m (D12 self)^T) + ones R b 1 *m (bv self)^T).

(** The whole method: [u] is the constant zero tensor of shape (1, 2), the
    time [t] is not used, and the argument [x] has shape (b, dim_x). *)
Definition forward {b} (self : CREN) (t : R) (xs : 'M[R]_(b, dim_x)) :
    option 'M[R]_(b, dim_x) :=
  let u := zeros R 1 2 in
  let n_initial_states := b in
  w <-- forward_w self u xs ;
  ub2 <-- linear_dyn u (B2 self) ;
  let x_dot := badd_rows (linear xs (A self) + linear w (B1 self)
                          + linear (ones R n_initial_states 1) (bx self))
                         ub2 in
  Some x_dot.

(** *** [output], [set_x_init], [set_y_init]

    A 3-D tensor of shape (b, 1, k) is kept as its b rows; [squeeze(1)] and
    [unsqueeze(1)] pass between it and the matrix of shape (b, k). *)
Definition batched (b k : nat) : Type := 'M[R]_(b, k).
Definition squeeze_1 {b k} (y : batched b k) : 'M[R]_(b, k) := y.
Definition unsqueeze_1 {b k} (y : 'M[R]_(b, k)) : batched b k := y.

Definition output {b} (self : CREN) (xi : 'M[R]_(b, dim_x)) :
    'M[R]_(b, dim_out) :=
  let yt := linear xi (C2 self) in yt.

Definition set_x_init {b} (x_init : batched b dim_x) : Method.t CREN unit :=
  Method.modify (set_x (existT _ b x_init)).

(** [torch.linalg.lstsq(A, B)[0]], the solution tensor of the library's
    least-squares routine, is not part of the class. *)
Variable lstsq :
  forall p n b : nat, 'M[R]_(p, n) -> 'M[R]_(p, b) -> 'M[R]_(n, b).

Definition set_y_init {b} (y_init : batched b dim_out) : Method.t CREN unit :=
  self <- Method.get ;;
  let x_init := unsqueeze_1 (lstsq (C2 self) (squeeze_1 y_init)^T)^T in
  set_x_init x_init.

(** The contract of the least-squares routine, one right-hand side (one
    column of [B]) at a time: the solution column minimises the residual
    [|A x - y|], and among the minimisers it has the least Euclidean norm. *)
Definition least_squares {p n} (A : 'M[R]_(p, n)) (y : 'cV[R]_p)
    (sol : 'cV[R]_n) : Prop :=
  forall x' : 'cV[R]_n, sqnorm (A *m sol - y)^T <= sqnorm (A *m x' - y)^T.

Definition min_norm_least_squares {p n} (A : 'M[R]_(p, n)) (y : 'cV[R]_p)
    (sol : 'cV[R]_n) : Prop :=
  least_squares A y sol
  /\ forall x' : 'cV[R]_n, least_squares A y x' ->
       sqnorm sol^T <= sqnorm x'^T.

Definition lstsq_contract {p n b} (A : 'M[R]_(p, n)) (B : 'M[R]_(p, b)) :
    Prop :=
  forall j : 'I_b, min_norm_least_squares A (col j B) (col j (lstsq A B)).

(** What [update_model_param] leaves in the object when no inversion
    raises. *)
Definition updated (self : CREN) : CREN :=
  set_B1 (invmx (local_P self) *m local_Z self)
    (set_C1 (invmx (local_Lambda self) *m (Chi self)^T)
      (set_D11 (- (invmx (local_Lambda self) *m tril (local_H4 self) (-1)))
        (set_A (invmx (local_P self) *m local_Y self)
          (set_P (local_P self) self)))).

(** The attributes [update_model_param] does not assign: the trainable
    parameters, the internal state and the configuration. *)
Definition same_inputs (s s' : CREN) : Prop :=
  [/\ Pstar s' = Pstar s, Chi s' = Chi s, X s' = X s & Y1 s' = Y1 s]
  /\ [/\ B2 s' = B2 s, D12 s' = D12 s, C2 s' = C2 s, D21 s' = D21 s
       & D22 s' = D22 s]
  /\ [/\ bx s' = bx s, bv s' = bv s, by_ s' = by_ s & x s' = x s]
  /\ [/\ epsilon s' = epsilon s,
          contraction_rate_lb s' = contraction_rate_lb s,
          act s' = act s, weight_init_std s' = weight_init_std s
       & batch_size s' = batch_size s]
  /\ [/\ horizon s' = horizon s, device s' = device s,
          linear_output s' = linear_output s & add_bias s' = add_bias s].

(** *** [__init__]

    The samples of [torch.randn] and the activation [nn.Tanh()] are
    arguments. *)
Record randn : Type := {
  randn_Pstar : 'M[R]_(dim_x, dim_x);
  randn_Chi : 'M[R]_(dim_x, dim_v);
  randn_X : 'M[R]_(dim_x + dim_v, dim_x + dim_v);
  randn_Y1 : 'M[R]_(dim_x, dim_x);
  randn_B2 : 'M[R]_(dim_x, dim_in);
  randn_D12 : 'M[R]_(dim_v, dim_in);
  randn_C2 : 'M[R]_(dim_out, dim_x);
  randn_D21 : 'M[R]_(dim_out, dim_v);
  randn_D22 : 'M[R]_(dim_out, dim_in);
  randn_bx : 'M[R]_(dim_x, 1);
  randn_bv : 'M[R]_(dim_v, 1);
  randn_by : 'M[R]_(dim_out, 1)
}.

Variable tanh : R -> R.

(** The assignments of [__init__], before its final call. *)
Definition init_attrs (rnd : randn) (batch_size : nat) (posdef_tol : R)
    (contraction_rate_lb : R) (add_bias linear_output : bool)
    (device : string) (weight_init_std : R) (horizon : option nat) : CREN :=
  {| batch_size := batch_size;
     horizon := horizon;
     device := device;
     linear_output := linear_output;
     contraction_rate_lb := contraction_rate_lb;
     add_bias := add_bias;
     act := tanh;
     x := existT _ batch_size (zeros R batch_size dim_x);
     weight_init_std := weight_init_std;
     Pstar := weight_init_std *: randn_Pstar rnd;
     Chi := weight_init_std *: randn_Chi rnd;
     X := weight_init_std *: randn_X rnd;
     Y1 := weight_init_std *: randn_Y1 rnd;
     B2 := weight_init_std *: randn_B2 rnd;
     D12 := weight_init_std *: randn_D12 rnd;
     C2 := weight_init_std *: randn_C2 rnd;
     D21 := if linear_output then zeros R dim_out dim_v
            else weight_init_std *: randn_D21 rnd;
     D22 := weight_init_std *: randn_D22 rnd;
     bx := if add_bias then weight_init_std *: randn_bx rnd
           else zeros R dim_x 1;
     bv := if add_bias then weight_init_std *: randn_bv rnd
           else zeros R dim_v 1;
     by_ := if add_bias then weight_init_std *: randn_by rnd
            else zeros R dim_out 1;
     epsilon := posdef_tol;
     A := zeros R dim_x dim_x;
     D11 := zeros R dim_v dim_v;
     C1 := zeros R dim_v dim_x;
     B1 := zeros R dim_x dim_v;
     P := zeros R dim_x dim_x |}.


End Model.

(** ** A least-squares routine for matrices of full row rank

    When [A A^T] is invertible, [A^T (A A^T)^{-1} B] solves [A X = B] with
    columns of least norm: an instance of the routine [set_y_init] calls. *)

Section PseudoInverse.

Variable R : realFieldType.

Definition lstsq_full_row_rank (p n b : nat) (A : 'M[R]_(p, n))
    (B : 'M[R]_(p, b)) : 'M[R]_(n, b) :=
  A^T *m invmx (A *m A^T) *m B.

End PseudoInverse.

(** ** Step 6 of the specification, read literally

    The specification writes the derived matrices with [@] as the plain
    matrix product: [A = P^{-1} @ Y^T],
    [D11 = -Lambda^{-1} @ strict_lower(H4)^T], [C1 = Lambda^{-1} @ Chi],
    [B1 = P^{-1} @ (-H2 - Chi)^T].  The last two products only have
    matching shapes when [dim_x = dim_v]. *)

Section SpecStep6.

Variable R : realFieldType.
Variables dim_in dim_out n : nat.

Definition strict_lower (M : 'M[R]_n) : 'M[R]_n := tril M (-1).

Definition spec_A (self : CREN R dim_in dim_out n n) : 'M[R]_n :=
  invmx (local_P self) *m (local_Y self)^T.

Definition spec_D11 (self : CREN R dim_in dim_out n n) : 'M[R]_n :=
  - invmx (local_Lambda self) *m (strict_lower (local_H4 self))^T.

Definition spec_C1 (self : CREN R dim_in dim_out n n) : 'M[R]_n :=
  invmx (local_Lambda self) *m Chi self.

Definition spec_B1 (self : CREN R dim_in dim_out n n) : 'M[R]_n :=
  invmx (local_P self) *m (- local_H2 self - Chi self)^T.

Definition spec_step6 (self self' : CREN R dim_in dim_out n n) : Prop :=
  [/\ A self' = spec_A self, D11 self' = spec_D11 self,
      C1 self' = spec_C1 self & B1 self' = spec_B1 self].

End SpecStep6.

(** ** A concrete network

    Two inputs, one output, two states and two implicit units.  The samples
    of [randn] are all 1, except those of [Chi] and [Y1], which are 1 in
    row 0, column 1 and 0 elsewhere; [weight_init_std] is 1 and
    [posdef_tol] is 1.  The activation is left open. *)

Section Example.

Variable R : realFieldType.
Variable tanh : R -> R.

Definition samples : randn R 2 1 2 2 :=
  {| randn_Pstar := const_mx 1; randn_Chi := delta_mx ord0 ord_max;
     randn_X := const_mx 1; randn_Y1 := delta_mx ord0 ord_max;
     randn_B2 := const_mx 1; randn_D12 := const_mx 1;
     randn_C2 := const_mx 1; randn_D21 := const_mx 1;
     randn_D22 := const_mx 1; randn_bx := const_mx 1;
     randn_bv := const_mx 1; randn_by := const_mx 1 |}.

Definition example : CREN R 2 1 2 2 :=
  init_attrs tanh samples 1 1 0 false true "cpu" 1 None.

End Example.

(** The same network built with [posdef_tol = 0] and
    [weight_init_std = 0]: every parameter is zero. *)

Section Degenerate.

Variable R : realFieldType.
Variable tanh : R -> R.


End Degenerate.


(** ** Shapes

    What torch decides on shapes alone: each operation below returns the
    shape of its result, or raises.  [forward_shape] follows [forward] line
    by line on the shape of its argument [x], which the typed model above
    fixes to (b, dim_x); [forward_trajectory] passes a state of shape
    (b, 1, dim_x). *)

Section Shapes.

Definition shape : Type := seq nat.

(** Broadcasting: the shapes are aligned at their last dimension; two sizes
    are compatible when they are equal or one of them is 1. *)
Fixpoint broadcast_rev (s1 s2 : seq nat) : option (seq nat) :=
  match s1, s2 with
  | [::], _ => Some s2
  | _, [::] => Some s1
  | a :: s1', b :: s2' =>
      if (a == b) || (b == 1%N) then omap (cons a) (broadcast_rev s1' s2')
      else if a == 1%N then omap (cons b) (broadcast_rev s1' s2')
      else None
  end.

Definition broadcast (s1 s2 : shape) : option shape :=
  omap rev (broadcast_rev (rev s1) (rev s2)).

(** [F.linear(input, weight)]: the weight has shape (out, in) or (in), and
    the last dimension of the input must be [in]. *)
Definition linear_shape (input weight : shape) : option shape :=
  match rev input, weight with
  | k' :: rest, [:: k] => if k' == k then Some (rev rest) else None
  | k' :: rest, [:: o; k] => if k' == k then Some (rev (o :: rest)) else None
  | _, _ => None
  end.

(** [t.unsqueeze(d)]. *)
Definition unsqueeze_shape (d : nat) (s : shape) : option shape :=
  if (d <= size s)%N then Some (take d s ++ 1%N :: drop d s) else None.

(** [t.squeeze(d)] removes dimension [d] when its size is 1. *)
Definition squeeze_shape (d : nat) (s : shape) : option shape :=
  if (d < size s)%N then
    Some (if nth 0%N s d == 1%N then take d s ++ drop d.+1 s else s)
  else None.

(** [M.T] on a 2-D tensor. *)
Definition T_shape (s : shape) : option shape :=
  if s is [:: r; c] then Some [:: c; r] else None.

(** [M[i, :]] and [M[i]] on a 2-D tensor, [M[i, j] = a]. *)
Definition getrow_shape (s : shape) (i : nat) : option shape :=
  if s is [:: r; c] then if (i < r)%N then Some [:: c] else None else None.

Definition setitem_shape (s : shape) (i j : nat) : option shape :=
  if s is [:: r; c] then if (i < r)%N && (j < c)%N then Some s else None
  else None.

(** [torch.linalg.lstsq(A, B)[0]] for [A] of shape (m, n) and [B] of shape
    (m, k): shape (n, k). *)
Definition lstsq_shape (a b : shape) : option shape :=
  match a, b with
  | [:: m; n], [:: m'; k] => if m == m' then Some [:: n; k] else None
  | _, _ => None
  end.

Variables dim_in dim_out dim_x dim_v : nat.

Local Open Scope method_scope.

(** Lines 136 to 142 and the body of the loop: the shape of [w]. *)
Definition forward_w_first_shape (u xs : shape) (n_initial_states : nat) :
    option shape :=
  vec <-- setitem_shape [:: dim_v; 1%N] 0 0 ;
  let w := [:: n_initial_states; dim_v] in
  c1 <-- getrow_shape [:: dim_v; dim_x] 0 ;
  lx <-- linear_shape xs c1 ;
  bv0 <-- getrow_shape [:: dim_v; 1%N] 0 ;
  bo <-- broadcast bv0 [:: n_initial_states] ;
  d12 <-- getrow_shape [:: dim_v; dim_in] 0 ;
  lu <-- linear_shape u d12 ;
  s1 <-- broadcast lx bo ;
  s2 <-- broadcast s1 lu ;
  v <-- unsqueeze_shape 1 s2 ;
  lv <-- linear_shape v vec ;
  broadcast w lv.

Definition forward_w_body_shape (u xs : shape) (n_initial_states : nat)
    (w : shape) (i : nat) : option shape :=
  vec <-- setitem_shape [:: dim_v; 1%N] i 0 ;
  c1 <-- getrow_shape [:: dim_v; dim_x] i ;
  lx <-- linear_shape xs c1 ;
  d11 <-- getrow_shape [:: dim_v; dim_v] i ;
  lw <-- linear_shape w d11 ;
  bvi <-- getrow_shape [:: dim_v; 1%N] i ;
  bo <-- broadcast bvi [:: n_initial_states] ;
  d12 <-- getrow_shape [:: dim_v; dim_in] i ;
  lu <-- linear_shape u d12 ;
  s1 <-- broadcast lx lw ;
  s2 <-- broadcast s1 bo ;
  s3 <-- broadcast s2 lu ;
  v <-- unsqueeze_shape 1 s3 ;
  lv <-- linear_shape v vec ;
  broadcast w lv.

Definition forward_shape (xs : shape) : option shape :=
  let u := [:: 1%N; 2] in
  n_initial_states <-- (if xs is n :: _ then Some n else None) ;
  w0 <-- forward_w_first_shape u xs n_initial_states ;
  w <-- foldl (fun ow i => w <-- ow ;
                           forward_w_body_shape u xs n_initial_states w i)
              (Some w0) (iota 1 (dim_v - 1)) ;
  xa <-- linear_shape xs [:: dim_x; dim_x] ;
  wb <-- linear_shape w [:: dim_x; dim_v] ;
  ob <-- linear_shape [:: n_initial_states; 1%N] [:: dim_x; 1%N] ;
  ub <-- linear_shape u [:: dim_x; dim_in] ;
  s1 <-- broadcast xa wb ;
  s2 <-- broadcast s1 ob ;
  broadcast s2 ub.

(** The shape [set_y_init] stores in [self.x]. *)
Definition set_y_init_shape (y_init : shape) : option shape :=
  y1 <-- squeeze_shape 1 y_init ;
  y2 <-- T_shape y1 ;
  sol <-- lstsq_shape [:: dim_out; dim_x] y2 ;
  x1 <-- T_shape sol ;
  unsqueeze_shape 1 x1.

End Shapes.

(** ** The reshape of [forward_trajectory]

    [out.reshape(out.shape[1], out.shape[0], out.shape[3])] on the output
    samples [out] of shape (horizon, b, 1, dim_out): the elements keep their
    row-major order and are cut again into [b] blocks of [horizon] rows. *)

Section Reshape.

Variable T : Type.

(** [n] consecutive blocks of [k] elements. *)
Fixpoint chunks (k n : nat) (s : seq T) : seq (seq T) :=
  if n is n'.+1 then take k s :: chunks k n' (drop k s) else [::].

Definition flatten4 (t : seq (seq (seq (seq T)))) : seq T :=
  flatten (flatten (flatten t)).

Definition reshape3 (d0 d1 d2 : nat) (flat : seq T) : seq (seq (seq T)) :=
  [seq chunks d2 d1 blk | blk <- chunks (d1 * d2) d0 flat].

Definition forward_trajectory_reshape (out : seq (seq (seq (seq T))))
    (horizon b dim_out : nat) : seq (seq (seq T)) :=
  reshape3 b horizon dim_out (flatten4 out).

(** The trajectory of batch element [i]: its sample at every time. *)
Definition trajectory_of (out : seq (seq (seq (seq T)))) (i : nat) :
    seq (seq T) :=
  [seq nth [::] (nth [::] sample i) 0 | sample <- out].

End Reshape.

(** ** [get_init_params]

    The dictionary the method returns, as the list of its items in the
    order of the literal. *)

Section InitParams.

Variable R : realFieldType.
Variables dim_in dim_out dim_x dim_v : nat.



End InitParams.

(** ** The training loop of [ren_training.py]

    Integers are Python integers: [a // b] is the floor of the quotient,
    [a % b] has the sign of [b], and both raise [ZeroDivisionError] when
    [b] is 0. *)

Definition floordiv (a b : int) : option int :=
  if b == 0 then None
  else Some (if 0 < b then divz a b else divz (- a) (- b)).

Definition pymod (a b : int) : option int :=
  if floordiv a b is Some q then Some (a - b * q) else None.

Definition range (n : int) : seq nat :=
  if n is Posz k then iota 0 k else [::].

(** The command-line arguments the loop reads. *)
Record args : Type := {
  total_epochs : int;
  patience_epoch : option int;
  log_epoch : option int
}.

(** How the loop ends: it runs through [range(total_epochs)], it reaches
    [break] at an epoch, or [epoch % log_epoch] raises at an epoch. *)
Inductive outcome : Type :=
  | Finished
  | Break of nat
  | ZeroDivisionError of nat.

Section Training.

Variable R : realFieldType.

(** The collaborators of the loop.  [net] is the state of [ren_module],
    [optimizer] and [scheduler]; [simulate] is
    [ren_module.forward_trajectory(u_in, y_init, ren_horizon)];
    [criterion] is [criterion(out, expert_trajectory)]; [state_dict] is
    [copy.deepcopy(ren_module.state_dict())]; [optimize] is
    [loss.backward()], [optimizer.step()], [scheduler.step()] and
    [ren_module.update_model_param()].  [optimizer.zero_grad()] clears
    gradient buffers that [loss.backward()] fills again; printing and
    the tensorboard writer are left out. *)
Variables net traj dict : Type.
Variable simulate : net -> traj.
Variable criterion : traj -> R.
Variable state_dict : net -> dict.
Variable optimize : net -> net.

(** The variables the loop assigns; [best_loss] is [None] for
    [float('inf')]. *)
Record training : Type := {
  ren_module : net;
  trajectories : seq traj;
  best_model_stat_dict : option dict;
  best_loss : option R;
  best_train_epoch : nat
}.

Definition temps (ren_module : net) : training :=
  {| ren_module := ren_module; trajectories := [::];
     best_model_stat_dict := None; best_loss := None;
     best_train_epoch := 0 |}.

(** One pass through the body of [for epoch in range(total_epochs)]; the
    second component is [None] when the loop goes on to the next epoch. *)
Definition epoch_body (patience : int) (log_every : int) (epoch : nat)
    (s : training) : training * option outcome :=
  let out := simulate (ren_module s) in
  let loss := criterion out in
  let s :=
    if (if best_loss s is Some best then loss < best else true) then
      {| ren_module := ren_module s; trajectories := trajectories s;
         best_model_stat_dict := Some (state_dict (ren_module s));
         best_loss := Some loss; best_train_epoch := epoch |}
    else s in
  if patience < (epoch : int) - (best_train_epoch s : int) then
    (s, Some (Break epoch))
  else
    let s :=
      {| ren_module := optimize (ren_module s);
         trajectories := trajectories s;
         best_model_stat_dict := best_model_stat_dict s;
         best_loss := best_loss s; best_train_epoch := best_train_epoch s |} in
    match pymod epoch log_every with
    | None => (s, Some (ZeroDivisionError epoch))
    | Some m =>
        let s :=
          if m == 0 then
            {| ren_module := ren_module s;
               trajectories := rcons (trajectories s) out;
               best_model_stat_dict := best_model_stat_dict s;
               best_loss := best_loss s;
               best_train_epoch := best_train_epoch s |}
          else s in
        (s, None)
    end.

Fixpoint for_epochs (patience log_every : int) (epochs : seq nat)
    (s : training) : training * outcome :=
  if epochs is epoch :: epochs' then
    let: (s', o) := epoch_body patience log_every epoch s in
    if o is Some r then (s', r) else for_epochs patience log_every epochs' s'
  else (s, Finished).

(** Lines 34 and 35: the defaults of [patience_epoch] and [log_epoch].
    The divisors 5 and 10 are positive, so [//] is [divz]. *)
Definition patience (a : args) : int :=
  if patience_epoch a is Some p then p else divz (total_epochs a) 5.

Definition log_every (a : args) : int :=
  if log_epoch a is Some l then l else divz (total_epochs a) 10.

(** Lines 77 to 132: the temporaries and the loop. *)
Definition train (a : args) (ren_module : net) : training * outcome :=
  for_epochs (patience a) (log_every a) (range (total_epochs a))
    (temps ren_module).

(** The state of the collaborators and the loss at the start of an
    epoch, when no earlier epoch left the loop. *)
Definition net_at (ren_module : net) (epoch : nat) : net :=
  iter epoch optimize ren_module.

Definition loss_at (ren_module : net) (epoch : nat) : R :=
  criterion (simulate (net_at ren_module epoch)).


(** The number of times the loop ran [optimize]. *)
Definition optimized (a : args) (o : outcome) : nat :=
  match o with
  | Finished => size (range (total_epochs a))
  | Break epoch => epoch
  | ZeroDivisionError epoch => epoch.+1
  end.

(** The temporaries hold the first epoch, among the first [n], whose loss
    is the least. *)
Definition first_best (ren_module : net) (n : nat) (s : training) : Prop :=
  exists2 k, (k < n)%N
  & [/\ best_train_epoch s = k,
        best_loss s = Some (loss_at ren_module k),
        best_model_stat_dict s = Some (state_dict (net_at ren_module k)),
        forall j, (j < n)%N -> loss_at ren_module k <= loss_at ren_module j
      & forall j, (j < k)%N -> loss_at ren_module k < loss_at ren_module j].

(** The first epoch with the least loss among the epochs 0 to [n], and
    the test of [break] at epoch [n] in terms of it. *)
Fixpoint first_argmin (ren_module : net) (n : nat) : nat :=
  if n is n'.+1 then
    if loss_at ren_module n < loss_at ren_module (first_argmin ren_module n')
    then n else first_argmin ren_module n'
  else 0.

Definition stale (a : args) (ren_module : net) (epoch : nat) : bool :=
  patience a < (epoch : int) - (first_argmin ren_module epoch : int).

End Training.

(** ** The script [train.py]

    The collaborators ([lasa_expert], [robomimic_expert], the model
    classes, [train_ren_model], [torch.save] and the rest) are only known
    by their calls: each returns or raises.  The script's own exceptions
    are told apart by the line that raises them. *)

Inductive DatasetKeys : Type := EEF_POS | EEF_QUAT | JOINT_POS | JOINT_VEL.

Inductive raised : Type :=
  | ExpertNotAvailable      (* line 59, NotImplementedError *)
  | WrongModelType          (* line 75, NotImplementedError *)
  | ExpertNotImplemented    (* line 111, NotImplementedError *)
  | NameError_dataset_keys  (* line 49, the name was never bound *)
  | Collaborator.           (* an exception raised inside a call *)

(** The arguments the control flow of the script reads. *)
Record script_args : Type := {
  expert : string;
  dataset_key : string;
  model_type : string;
  loss : string
}.

Section TrainScript.

Variables dataloader model ren_data : Type.
Variable lasa_expert : option dataloader.
Variable robomimic_expert : seq DatasetKeys -> option dataloader.
Variable sanity_check : dataloader -> option unit.
Variable new_CREN new_DREN : option model.
Variable train_ren_model : model -> dataloader -> bool -> option ren_data.
Variable save : ren_data -> option unit.

Definition call {T : Type} (r : option T) : raised + T :=
  if r is Some v then inr v else inl Collaborator.

Definition and_then {T S : Type} (r : raised + T) (k : T -> raised + S) :
    raised + S :=
  match r with inl e => inl e | inr v => k v end.

(** Lines 38 to 45: an [if]/[elif] chain without [else]. *)
Definition dataset_keys_of (key : string) : option (seq DatasetKeys) :=
  if String.eqb key "eef_pos" then Some [:: EEF_POS]
  else if String.eqb key "eef_pos_ori" then Some [:: EEF_POS; EEF_QUAT]
  else if String.eqb key "joint_pos" then Some [:: JOINT_POS]
  else if String.eqb key "joint_pos_vel" then Some [:: JOINT_POS; JOINT_VEL]
  else None.

(** Lines 26 to 59. *)
Definition set_expert (a : script_args) : raised + dataloader :=
  if String.eqb (expert a) "lasa" then
    and_then (call lasa_expert) (fun dataloader =>
    and_then (call (sanity_check dataloader)) (fun _ => inr dataloader))
  else if String.eqb (expert a) "robomimic" then
    match dataset_keys_of (dataset_key a) with
    | Some dataset_keys =>
        and_then (call (robomimic_expert dataset_keys)) (fun dataloader =>
        and_then (call (sanity_check dataloader)) (fun _ => inr dataloader))
    | None => inl NameError_dataset_keys
    end
  else inl ExpertNotAvailable.

(** Lines 62 to 75. *)
Definition define_model (a : script_args) : raised + model :=
  if String.eqb (model_type a) "continuous" then call new_CREN
  else if String.eqb (model_type a) "discrete" then call new_DREN
  else inl WrongModelType.

(** The whole script. *)
Definition main (a : script_args) : raised + unit :=
  and_then (set_expert a) (fun dataloader =>
  and_then (define_model a) (fun model =>
  let mse := String.eqb (loss a) "mse" in
  and_then (call (train_ren_model model dataloader mse)) (fun ren_data =>
  if String.eqb (expert a) "lasa" || String.eqb (expert a) "robomimic"
  then call (save ren_data)
  else inl ExpertNotImplemented))).

End TrainScript.
(** * Properties *)

(** ** Linear algebra used by the projector *)

Section Algebra.

Variable R : realFieldType.

Lemma sqnorm_ge0 n (v : 'rV[R]_n) : 0 <= sqnorm v.
Proof. by apply: sumr_ge0 => k _; rewrite sqr_ge0. Qed.

Lemma sqnorm_eq0 n (v : 'rV[R]_n) : sqnorm v = 0 -> v = 0.
Proof.
move=> h; apply/rowP => k; rewrite mxE; apply/eqP.
rewrite -(sqrf_eq0 (v 0 k)); apply/eqP.
by apply: (psumr_eq0P _ h) => // i _; rewrite sqr_ge0.
Qed.

Lemma sqnorm_gt0 n (v : 'rV[R]_n) : v != 0 -> 0 < sqnorm v.
Proof.
move=> v0; rewrite lt_def sqnorm_ge0 andbT.
by apply: contraNneq v0 => /sqnorm_eq0 ->.
Qed.

Lemma mulmx_tr_sqnorm n (v : 'rV[R]_n) : (v *m v^T) 0 0 = sqnorm v.
Proof. by rewrite mxE; apply: eq_bigr => k _; rewrite mxE expr2. Qed.

Lemma scalemxE r c (a : R) (B : 'M[R]_(r, c)) i j : (a *: B) i j = a * B i j.
Proof. by rewrite mxE. Qed.

Lemma addmxE r c (M N : 'M[R]_(r, c)) i j : (M + N) i j = M i j + N i j.
Proof. by rewrite mxE. Qed.

Lemma oppmxE r c (M : 'M[R]_(r, c)) i j : (- M) i j = - M i j.
Proof. by rewrite mxE. Qed.

Lemma trmxE r c (M : 'M[R]_(r, c)) i j : M^T i j = M j i.
Proof. by rewrite mxE. Qed.

(** The quadratic form of [c * M M^T + e * I]. *)
Lemma quad_gram n (M : 'M[R]_n) (c e : R) (v : 'rV[R]_n) :
  (v *m (c *: linear M M + e *: eye R n) *m v^T) 0 0
  = c * sqnorm (v *m M) + e * sqnorm v.
Proof.
rewrite /linear /eye mulmxDr mulmxDl mxE -!scalemxAr -!scalemxAl.
rewrite !scalemxE mulmx1 mulmx_tr_sqnorm.
by rewrite mulmxA -mulmxA -trmx_mul mulmx_tr_sqnorm.
Qed.

Lemma quad_gram_ge n (M : 'M[R]_n) (c e : R) (v : 'rV[R]_n) :
  0 <= c -> e * sqnorm v <= (v *m (c *: linear M M + e *: eye R n) *m v^T) 0 0.
Proof.
by move=> c0; rewrite quad_gram lerDr mulr_ge0 // sqnorm_ge0.
Qed.

(** A matrix whose quadratic form dominates [e * |v|^2] with [e > 0] has a
    trivial kernel, hence an inverse. *)
Lemma posdef_unitmx n (G : 'M[R]_n) (e : R) :
  0 < e -> (forall v : 'rV[R]_n, e * sqnorm v <= (v *m G *m v^T) 0 0) ->
  G \in unitmx.
Proof.
move=> e0 hG; rewrite -row_free_unit -kermx_eq0; apply/rowV0P => v.
move=> /sub_kermxP vG; apply: sqnorm_eq0; apply/eqP.
have := hG v; rewrite vG mul0mx mxE => le0.
rewrite eq_le sqnorm_ge0 andbT -(pmulr_rle0 _ e0); exact: le0.
Qed.

(** Inverse of a diagonal matrix with nonzero diagonal. *)
Lemma unitmx_diag n (d : 'rV[R]_n) :
  (forall i, d 0 i != 0) -> diag_mx d \in unitmx.
Proof.
move=> d0; rewrite unitmxE det_diag unitfE.
by apply/prodf_neq0 => i _.
Qed.

Lemma invmx_diag n (d : 'rV[R]_n) :
  (forall i, d 0 i != 0) -> invmx (diag_mx d) = diag_mx (\row_i (d 0 i)^-1).
Proof.
move=> d0; have ud := unitmx_diag d0.
have dV : diag_mx d *m diag_mx (\row_i (d 0 i)^-1) = 1%:M.
  rewrite mulmx_diag; apply/matrixP => i j; rewrite !mxE.
  by case: eqP => //= _; rewrite mulfV.
by rewrite -[RHS](mulKmx ud) dV mulmx1.
Qed.

End Algebra.

(** ** The stability projector [update_model_param] *)

Section Projector.

Variable R : realFieldType.
Variables dim_in dim_out dim_x dim_v : nat.

Local Notation CREN := (CREN R dim_in dim_out dim_x dim_v).

Implicit Type self : CREN.

Lemma linear_trR r k o (a : 'M[R]_(r, k)) (b : 'M[R]_(k, o)) :
  linear a b^T = a *m b.
Proof. by rewrite /linear trmxK. Qed.

Lemma linear_sym r k (a : 'M[R]_(r, k)) : (linear a a)^T = linear a a.
Proof. by rewrite /linear trmx_mul trmxK. Qed.

(** Entries of [H] and of its lower right block. *)
Lemma local_H_entry self i j :
  local_H self i j
  = \sum_k X self i k * X self j k + epsilon self *+ (i == j).
Proof.
rewrite /local_H /linear /eye !mxE mulr_natr; congr (_ + _).
by apply: eq_bigr => k _; rewrite mxE.
Qed.

Lemma local_H4_entry self i j :
  local_H4 self i j = local_H self (rshift dim_x i) (rshift dim_x j).
Proof. by rewrite /local_H4 /split0 /split1 /= !mxE. Qed.

Lemma local_H1_entry self i j :
  local_H1 self i j = local_H self (lshift dim_v i) (lshift dim_v j).
Proof. by rewrite /local_H1 /split0 /split1 /= !mxE. Qed.

Lemma local_H2_entry self i j :
  local_H2 self i j = local_H self (lshift dim_v i) (rshift dim_x j).
Proof. by rewrite /local_H2 /split0 /split1 /= !mxE. Qed.

Lemma local_H4_diag self i :
  local_H4 self i i
  = sqnorm (row (rshift dim_x i) (X self)) + epsilon self.
Proof.
rewrite local_H4_entry local_H_entry eqxx mulr1n; congr (_ + _).
by apply: eq_bigr => k _; rewrite mxE expr2.
Qed.

Lemma local_H4_diag_gt0 self i : 0 < epsilon self -> 0 < local_H4 self i i.
Proof.
by move=> e0; rewrite local_H4_diag ltr_wpDl ?sqnorm_ge0.
Qed.

(** [Lambda] is the diagonal matrix of the halved diagonal of [H4]. *)
Lemma local_LambdaE self :
  local_Lambda self = diag_mx (\row_i (2^-1 * local_H4 self i i)).
Proof.
rewrite /local_Lambda /diag_embed /diagonal -linearZ /=; congr diag_mx.
by apply/rowP => i; rewrite !mxE.
Qed.

Lemma local_Lambda_diag self i :
  local_Lambda self i i = 2^-1 * local_H4 self i i.
Proof. by rewrite local_LambdaE 2!mxE eqxx mulr1n. Qed.

Lemma local_Lambda_gt0 self i :
  0 < epsilon self -> 0 < local_Lambda self i i.
Proof.
move=> e0; rewrite local_Lambda_diag mulr_gt0 ?invr_gt0 ?ltr0n //.
exact: local_H4_diag_gt0.
Qed.

Lemma local_Lambda_unit self :
  0 < epsilon self -> local_Lambda self \in unitmx.
Proof.
move=> e0; rewrite local_LambdaE; apply: unitmx_diag => i; rewrite mxE.
by rewrite gt_eqF // -local_Lambda_diag local_Lambda_gt0.
Qed.

Lemma invmx_local_Lambda self :
  0 < epsilon self ->
  invmx (local_Lambda self) = diag_mx (\row_i (local_Lambda self i i)^-1).
Proof.
move=> e0; rewrite {1}local_LambdaE invmx_diag => [i|].
  by rewrite mxE gt_eqF // -local_Lambda_diag local_Lambda_gt0.
by congr (diag_mx _); apply/rowP => i; rewrite 3!mxE local_Lambda_diag.
Qed.

(** [P] is symmetric, and its quadratic form dominates [epsilon |v|^2]. *)
Lemma local_P_sym self : (local_P self)^T = local_P self.
Proof.
by rewrite /local_P /eye linearD /= !linearZ /= linear_sym trmx1.
Qed.

Lemma local_P_quad self (v : 'rV[R]_dim_x) :
  epsilon self * sqnorm v <= (v *m local_P self *m v^T) 0 0.
Proof. by apply: quad_gram_ge; rewrite invr_ge0 ler0n. Qed.

Lemma local_P_unit self : 0 < epsilon self -> local_P self \in unitmx.
Proof. move=> e0; apply: (posdef_unitmx e0) => v; exact: local_P_quad. Qed.

Lemma update_model_param_run self :
  0 < epsilon self -> update_model_param self = (Some tt, updated self).
Proof.
move=> e0; rewrite /update_model_param /Method.bind /Method.get /Method.lift.
rewrite /Method.modify /inverse /= local_P_unit // local_Lambda_unit //=.
by rewrite /updated !linear_trR.
Qed.

Lemma update_model_param_state self :
  0 < epsilon self -> (update_model_param self).2 = updated self.
Proof. by move=> /update_model_param_run ->. Qed.

Lemma local_P_quad_gt0 self (v : 'rV[R]_dim_x) :
  0 < epsilon self -> v != 0 -> 0 < (v *m local_P self *m v^T) 0 0.
Proof.
move=> e0 v0; apply: lt_le_trans (local_P_quad self v).
by rewrite mulr_gt0 // sqnorm_gt0.
Qed.

Lemma local_P_eigenvalue self a :
  eigenvalue (local_P self) a -> epsilon self <= a.
Proof.
move=> /eigenvalueP [v vP v0]; have := local_P_quad self v.
rewrite vP -scalemxAl scalemxE mulmx_tr_sqnorm.
by rewrite ler_pM2r // sqnorm_gt0.
Qed.

(** The derived attributes after a run that does not raise. *)
Lemma updated_P self : P (updated self) = local_P self.
Proof. by case: self. Qed.

Lemma updated_A self :
  A (updated self) = invmx (local_P self) *m local_Y self.
Proof. by case: self. Qed.

Lemma updated_D11 self :
  D11 (updated self)
  = - (invmx (local_Lambda self) *m tril (local_H4 self) (-1)).
Proof. by case: self. Qed.

Lemma updated_C1 self :
  C1 (updated self) = invmx (local_Lambda self) *m (Chi self)^T.
Proof. by case: self. Qed.

Lemma updated_B1 self :
  B1 (updated self) = invmx (local_P self) *m local_Z self.
Proof. by case: self. Qed.

(** Entries of [torch.tril(M, -1)]. *)
Lemma tril_m1_entry n (M : 'M[R]_n) i j :
  tril M (-1) i j = if (j < i)%N then M i j else 0.
Proof.
rewrite mxE; congr (if _ then _ else _).
by rewrite lerBrDr addrC -intS lez_nat.
Qed.

(** Entries of the [D11] the method stores. *)
Lemma updated_D11_entry self i j :
  0 < epsilon self ->
  D11 (updated self) i j
  = if (j < i)%N then - ((local_Lambda self i i)^-1 * local_H4 self i j)
    else 0.
Proof.
move=> e0; rewrite updated_D11 invmx_local_Lambda // mul_diag_mx.
rewrite 3!mxE tril_m1_entry.
by case: ifP => _; rewrite ?mulr0 ?oppr0.
Qed.

(** C1: for every parameter set and every [epsilon > 0], the matrix [P]
    stored by [update_model_param] equals
    [0.5 * Pstar @ Pstar^T + epsilon * I], is symmetric, and is positive
    definite with every eigenvalue at least [epsilon]. *)
Theorem update_model_param_P self :
  0 < epsilon self ->
  let P' := P (update_model_param self).2 in
  [/\ P' = 2^-1 *: (Pstar self *m (Pstar self)^T) + epsilon self *: 1%:M,
      P'^T = P',
      forall v : 'rV[R]_dim_x, v != 0 -> 0 < (v *m P' *m v^T) 0 0
    & forall a : R, eigenvalue P' a -> epsilon self <= a].
Proof.
move=> e0; rewrite update_model_param_state //= updated_P; split => //.
- exact: local_P_sym.
- by move=> v; apply: local_P_quad_gt0.
- by move=> a; apply: local_P_eigenvalue.
Qed.

(** C2: for every parameter set and every [epsilon > 0], the matrix [D11]
    stored by [update_model_param] is strictly lower triangular: every
    entry on the main diagonal and above it is zero. *)
Theorem update_model_param_D11_strictly_lower self (i j : 'I_dim_v) :
  0 < epsilon self -> (i <= j)%N -> D11 (update_model_param self).2 i j = 0.
Proof.
move=> e0 ij; rewrite update_model_param_state // updated_D11_entry //.
by rewrite ltnNge ij.
Qed.

(** C4, as amended: for every parameter set and every [epsilon > 0], [P] and
    [Lambda] are invertible and the method stores [A = P^{-1} @ Y],
    [D11 = -(Lambda^{-1} @ strict_lower(H4))], [C1 = Lambda^{-1} @ Chi^T]
    and [B1 = P^{-1} @ (-H2 - Chi)], since [F.linear(a, b)] is
    [a @ b^T]. *)
Theorem update_model_param_step6 self :
  0 < epsilon self ->
  let self' := (update_model_param self).2 in
  [/\ local_P self \in unitmx /\ local_Lambda self \in unitmx,
      A self' = invmx (local_P self) *m local_Y self,
      D11 self' = - (invmx (local_Lambda self) *m tril (local_H4 self) (-1)),
      C1 self' = invmx (local_Lambda self) *m (Chi self)^T
    & B1 self' = invmx (local_P self) *m (- local_H2 self - Chi self)].
Proof.
move=> e0; rewrite update_model_param_state //=.
rewrite updated_A updated_D11 updated_C1 updated_B1; split => //.
by rewrite local_P_unit // local_Lambda_unit.
Qed.


Lemma update_model_param_raises self :
  (update_model_param self).1 = None -> epsilon self <= 0.
Proof.
by case: (ltP 0 (epsilon self)) => // /update_model_param_run ->.
Qed.

(** C10: [update_model_param] assigns only the derived matrices [P], [A],
    [D11], [C1] and [B1]; every trainable parameter, the internal state [x]
    and every configuration attribute are the same after the call, whether
    it returns or raises. *)
Theorem update_model_param_frame self :
  same_inputs self (update_model_param self).2.
Proof.
rewrite /update_model_param /Method.bind /Method.get /Method.lift.
rewrite /Method.modify /inverse /=.
by case: ifP => _ /=; [case: ifP => _ /=|]; case: self.
Qed.

End Projector.

(** ** The specification's step 6 against the code *)

Section Step6.

Variable R : realFieldType.
Variables dim_in dim_out n : nat.

Implicit Type self : CREN R dim_in dim_out n n.

(** The literal [D11] of the specification is strictly upper triangular. *)
Lemma spec_D11_entry self i j :
  0 < epsilon self ->
  spec_D11 self i j
  = if (i < j)%N then - ((local_Lambda self i i)^-1 * local_H4 self j i)
    else 0.
Proof.
move=> e0; rewrite /spec_D11 /strict_lower invmx_local_Lambda // mulNmx.
rewrite mul_diag_mx 3!mxE [(tril _ _)^T _ _]mxE tril_m1_entry.
by case: ifP => _; rewrite ?mulr0 ?oppr0.
Qed.

End Step6.

(** ** Facts about the concrete network *)

Section ExampleFacts.

Variable R : realFieldType.
Variable tanh : R -> R.

Local Notation ex := (example tanh).

Lemma example_epsilon : epsilon ex = 1.
Proof. by []. Qed.

Lemma example_epsilon_gt0 : 0 < epsilon ex.
Proof. by rewrite example_epsilon ltr01. Qed.

Lemma example_H i j : local_H ex i j = 4 + (i == j)%:R.
Proof.
rewrite local_H_entry example_epsilon; congr (_ + _).
rewrite (eq_bigr (fun=> 1)) ?sumr_const ?card_ord //.
by move=> k _; rewrite /= !mxE !mulr1.
Qed.

Lemma example_D11_10 :
  D11 (update_model_param ex).2 ord_max ord0 != 0.
Proof.
rewrite update_model_param_state ?example_epsilon_gt0 //.
rewrite updated_D11_entry ?example_epsilon_gt0 //= local_Lambda_diag.
rewrite !local_H4_entry !example_H /= oppr_eq0 mulf_neq0 //.
  by rewrite invr_eq0 mulf_neq0 ?invr_eq0 ?natr1 ?pnatr_eq0.
by rewrite addr0 pnatr_eq0.
Qed.

Lemma example_spec_D11_10 : spec_D11 ex ord_max ord0 = 0.
Proof. by rewrite spec_D11_entry ?example_epsilon_gt0. Qed.

End ExampleFacts.

(** C4, as stated, fails: on the concrete network over the rationals the
    stored [D11] has a nonzero entry in row 1, column 0, where the literal
    formula [-Lambda^{-1} @ strict_lower(H4)^T] of the specification gives
    zero. *)
Lemma update_model_param_step6_counterexample :
  ~ spec_step6 (example (R := rat) id) (update_model_param (example id)).2.
Proof.
move=> [_ hD _ _]; have := example_D11_10 (R := rat) id.
by rewrite hD example_spec_D11_10 eqxx.
Qed.

(** ** Every formula of the specification's step 6 differs from the code *)

Section Step6Example.

Variable R : realFieldType.
Variable tanh : R -> R.

Local Notation ex := (example tanh).

Lemma example_Chi i j :
  Chi ex i j = ((i == ord0) && (j == ord_max))%:R.
Proof. by rewrite /= 2!mxE mul1r. Qed.

Lemma example_Y1 i j :
  Y1 ex i j = ((i == ord0) && (j == ord_max))%:R.
Proof. by rewrite /= 2!mxE mul1r. Qed.

Lemma example_Y_asym : local_Y ex ord0 ord_max != local_Y ex ord_max ord0.
Proof.
rewrite /local_Y [X in X != _]scalemxE [X in _ != X]scalemxE !addmxE.
rewrite !local_H1_entry !example_H !example_Y1.
rewrite (_ : contraction_rate_lb ex = 0) // !scale0r.
rewrite !oppmxE !trmxE !example_Y1 /= ![(0 : 'M__) _ _]mxE.
by apply/eqP => h; lra.
Qed.

Lemma example_A_differs : A (update_model_param ex).2 <> spec_A ex.
Proof.
have e0 := example_epsilon_gt0 tanh.
rewrite update_model_param_state // updated_A /spec_A => h.
have := congr1 (mulmx (local_P ex)) h.
rewrite !mulKVmx ?local_P_unit // => hY.
by have := example_Y_asym; rewrite {1}hY trmxE eqxx.
Qed.

Lemma example_D11_differs : D11 (update_model_param ex).2 <> spec_D11 ex.
Proof.
move=> h; have := example_D11_10 tanh.
by rewrite h example_spec_D11_10 eqxx.
Qed.

Lemma example_C1_differs : C1 (update_model_param ex).2 <> spec_C1 ex.
Proof.
have e0 := example_epsilon_gt0 tanh.
rewrite update_model_param_state // updated_C1 /spec_C1 => h.
have := congr1 (mulmx (local_Lambda ex)) h.
rewrite !mulKVmx ?local_Lambda_unit // => /matrixP /(_ ord0 ord_max).
rewrite trmxE !example_Chi /= => /eqP.
by rewrite eq_sym oner_eq0.
Qed.

Lemma example_B1_differs : B1 (update_model_param ex).2 <> spec_B1 ex.
Proof.
have e0 := example_epsilon_gt0 tanh.
rewrite update_model_param_state // updated_B1 /spec_B1 /local_Z => h.
have := congr1 (mulmx (local_P ex)) h.
rewrite !mulKVmx ?local_P_unit // => /matrixP /(_ ord0 ord_max).
rewrite trmxE !addmxE !oppmxE !local_H2_entry !example_H !example_Chi /=.
by move=> hz; lra.
Qed.

End Step6Example.

(** On the concrete network over the rationals none of the four formulas of
    the specification's step 6 gives the matrix the code stores. *)
Lemma update_model_param_step6_all_differ :
  let self := example (R := rat) id in
  let self' := (update_model_param self).2 in
  [/\ A self' <> spec_A self, D11 self' <> spec_D11 self,
      C1 self' <> spec_C1 self & B1 self' <> spec_B1 self].
Proof.
split.
- exact: example_A_differs.
- exact: example_D11_differs.
- exact: example_C1_differs.
- exact: example_B1_differs.
Qed.

(** ** The projector on the concrete network, over the rationals *)

Lemma update_model_param_P_witness :
  let self := example (R := rat) id in
  let P' := P (update_model_param self).2 in
  0 < epsilon self
  /\ [/\ P' = 2^-1 *: (Pstar self *m (Pstar self)^T) + epsilon self *: 1%:M,
         P'^T = P',
         forall v : 'rV[rat]_2, v != 0 -> 0 < (v *m P' *m v^T) 0 0
       & forall a : rat, eigenvalue P' a -> epsilon self <= a].
Proof.
split; first by vm_compute.
by apply: update_model_param_P; vm_compute.
Defined.

Lemma update_model_param_D11_strictly_lower_witness :
  let self := example (R := rat) id in
  D11 (update_model_param self).2 ord0 ord_max = 0.
Proof.
by apply: update_model_param_D11_strictly_lower; vm_compute.
Defined.

Lemma update_model_param_step6_witness :
  let self := example (R := rat) id in
  let self' := (update_model_param self).2 in
  [/\ local_P self \in unitmx /\ local_Lambda self \in unitmx,
      A self' = invmx (local_P self) *m local_Y self,
      D11 self' = - (invmx (local_Lambda self) *m tril (local_H4 self) (-1)),
      C1 self' = invmx (local_Lambda self) *m (Chi self)^T
    & B1 self' = invmx (local_P self) *m (- local_H2 self - Chi self)].
Proof.
by apply: update_model_param_step6; vm_compute.
Defined.


(** ** The implicit layer of [forward] *)

Section Forward.

Variable R : realFieldType.
Variables dim_in dim_out dim_x dim_v : nat.

Local Notation CREN := (CREN R dim_in dim_out dim_x dim_v).

Implicit Type self : CREN.

Lemma linear_dyn_same r k o (input : 'M[R]_(r, k)) (weight : 'M[R]_(o, k)) :
  linear_dyn input weight = Some (linear input weight).
Proof.
rewrite /linear_dyn; case: eqP => // e.
by rewrite (eq_axiomK e) castmx_id.
Qed.

Lemma linear_dyn_diff r k o k' (input : 'M[R]_(r, k))
    (weight : 'M[R]_(o, k')) :
  k != k' -> linear_dyn input weight = None.
Proof. by rewrite /linear_dyn; case: eqP. Qed.

Lemma getrow_ord r c (M : 'M[R]_(r, c)) (i : 'I_r) :
  getrow M i = Some (row i M).
Proof. by rewrite /getrow valK. Qed.

Lemma getrow_out r c (M : 'M[R]_(r, c)) (i : nat) :
  (r <= i)%N -> getrow M i = None.
Proof. by move=> ri; rewrite /getrow insubF // ltnNge ri. Qed.

Lemma setitem_ord r c (M : 'M[R]_(r, c)) (i : 'I_r) (j : 'I_c) a :
  setitem M i j a
  = Some (\matrix_(k, l) (if (k == i) && (l == j) then a else M k l)).
Proof. by rewrite /setitem !valK. Qed.

Lemma linear1E b k (m : 'M[R]_(b, k)) (wv : 'rV[R]_k) r :
  linear1 m wv 0 r = \sum_j wv 0 j * m r j.
Proof.
rewrite /linear1 /linear 2!mxE; apply: eq_bigr => j _.
by rewrite mxE mulrC.
Qed.

Lemma bmul_onesE b (s : 'rV[R]_1) r : bmul s (ones R 1 b) 0 r = s 0 0.
Proof. by rewrite /bmul /ones 2!mxE mulr1. Qed.

Lemma baddE b (v : 'rV[R]_b) (s : 'rV[R]_1) r : badd v s 0 r = v 0 r + s 0 0.
Proof. by rewrite /badd 2!mxE. Qed.

Lemma forward_w_body_ord b self (u : 'M[R]_(1, dim_in))
    (xs : 'M[R]_(b, dim_x)) (w : 'M[R]_(b, dim_v)) (i : 'I_dim_v) :
  forward_w_body self u xs w i
  = Some (\matrix_(r, j) (w r j + if j == i
                                   then act self (body_arg self u xs w r i)
                                   else 0)).
Proof.
rewrite /forward_w_body (setitem_ord _ i ord0) /= !getrow_ord /=.
rewrite /linear1_dyn linear_dyn_same /=; congr Some.
apply/matrixP => r j; rewrite [RHS]mxE [LHS]mxE; congr (_ + _).
rewrite /linear mxE big_ord1 [in X in _ * X]mxE [in X in _ * X]mxE.
rewrite /zeros [in X in _ * X]mxE eqxx andbT.
case: ifP => _; last by rewrite mulr0.
rewrite mulr1 mxE; congr (act self _).
rewrite /unsqueeze1 mxE baddE 2!addmxE !linear1E bmul_onesE.
rewrite /body_arg -addrA [X in _ + X]addrC addrA.
by congr (_ + _ + _ + _); rewrite ?mxE //; apply: eq_bigr => l _; rewrite mxE.
Qed.

Lemma forward_w_first_ord b self (u : 'M[R]_(1, dim_in))
    (xs : 'M[R]_(b, dim_x)) (i0 : 'I_dim_v) :
  i0 = 0%N :> nat ->
  forward_w_first self u xs
  = Some (\matrix_(r, j) (if j == i0
                          then act self (body_arg self u xs 0 r i0)
                          else 0)).
Proof.
move=> e; rewrite /forward_w_first.
have := setitem_ord (zeros R dim_v 1) i0 ord0 1; rewrite e => -> /=.
have := getrow_ord (C1 self) i0; rewrite e => -> /=.
have := getrow_ord (bv self) i0; rewrite e => -> /=.
have := getrow_ord (D12 self) i0; rewrite e => -> /=.
rewrite /linear1_dyn linear_dyn_same /=; congr Some.
apply/matrixP => r j; rewrite [RHS]mxE [LHS]mxE /zeros [X in X + _]mxE add0r.
rewrite /linear mxE big_ord1 [in X in _ * X]mxE [in X in _ * X]mxE.
rewrite [in X in _ * X]mxE eqxx andbT.
case: ifP => _; last by rewrite mulr0.
rewrite mulr1 mxE; congr (act self _).
rewrite /unsqueeze1 mxE baddE addmxE !linear1E bmul_onesE.
rewrite /body_arg -addrA [X in _ + X]addrC addrA.
rewrite [X in _ + X + _ + _]big1 => [l _|]; first by rewrite mxE mulr0.
rewrite addr0.
by congr (_ + _ + _); rewrite ?mxE //; apply: eq_bigr => l _; rewrite mxE.
Qed.

(** Row [i] of the equation only reads the columns of [w] before [i]. *)
Lemma row_equation_ext b self (u : 'M[R]_(1, dim_in))
    (xs : 'M[R]_(b, dim_x)) (w w' : 'M[R]_(b, dim_v)) r (i : 'I_dim_v) :
  (forall l : 'I_dim_v, (l < i)%N -> w r l = w' r l) ->
  row_equation self u xs w r i = row_equation self u xs w' r i.
Proof.
move=> h; rewrite /row_equation; congr (_ + _ + _ + _).
by apply: eq_bigr => l li; rewrite h.
Qed.

(** While the columns from [i] on are still zero, the sum over every
    column that the loop body takes is the sum over the columns before
    [i]. *)
Lemma body_arg_row b self (u : 'M[R]_(1, dim_in))
    (xs : 'M[R]_(b, dim_x)) (w : 'M[R]_(b, dim_v)) r (i : 'I_dim_v) :
  (forall l : 'I_dim_v, (i <= l)%N -> w r l = 0) ->
  body_arg self u xs w r i = row_equation self u xs w r i.
Proof.
move=> h; rewrite /body_arg /row_equation; congr (_ + _ + _ + _).
rewrite [RHS]big_mkcond; apply: eq_bigr => l _.
by case: ltnP => // il; rewrite h // mulr0.
Qed.

Lemma solved_first b self (u : 'M[R]_(1, dim_in)) (xs : 'M[R]_(b, dim_x))
    (i0 : 'I_dim_v) :
  i0 = 0%N :> nat ->
  solved self u xs 1
    (\matrix_(r, j) (if j == i0
                     then act self (body_arg self u xs 0 r i0) else 0)).
Proof.
move=> e; split=> r j; rewrite mxE.
  rewrite ltnS leqn0 -e => /eqP/val_inj ->; rewrite eqxx.
  have z0 (l : 'I_dim_v) : (i0 <= l)%N -> (0 : 'M[R]_(b, dim_v)) r l = 0.
    by rewrite mxE.
  rewrite (body_arg_row self u xs z0).
  congr (act self _); apply: row_equation_ext => l.
  by rewrite e.
by case: eqP => // ->; rewrite e.
Qed.

Lemma solved_step b self (u : 'M[R]_(1, dim_in)) (xs : 'M[R]_(b, dim_x))
    (w : 'M[R]_(b, dim_v)) (i : 'I_dim_v) :
  solved self u xs i w ->
  solved self u xs i.+1
    (\matrix_(r, j) (w r j + if j == i
                             then act self (body_arg self u xs w r i)
                             else 0)).
Proof.
move=> [hlt hge]; split=> r j; rewrite mxE.
  rewrite ltnS leq_eqVlt => /orP [/eqP/val_inj -> | ji].
    rewrite eqxx hge // add0r (body_arg_row self u xs (hge r)).
    congr (act self _); apply: row_equation_ext => l li.
    by rewrite mxE; case: eqP li => [->|]; rewrite ?ltnn ?addr0.
  have -> : (j == i) = false by apply/negbTE; rewrite neq_ltn ji.
  rewrite addr0 hlt //; congr (act self _); apply: row_equation_ext => l lj.
  rewrite mxE; case: eqP lj => [->|_ _]; last by rewrite addr0.
  by move=> /ltnW; rewrite leqNgt ji.
move=> ij; have -> : (j == i) = false by apply/negbTE; rewrite neq_ltn ij orbT.
by rewrite addr0 hge // ltnW.
Qed.

Lemma forward_w_loop b self (u : 'M[R]_(1, dim_in)) (xs : 'M[R]_(b, dim_x))
    (m k : nat) (w : 'M[R]_(b, dim_v)) :
  (k + m = dim_v)%N -> solved self u xs k w ->
  exists2 w', foldl (fun ow i => obind (fun w0 => forward_w_body self u xs w0 i) ow)
                (Some w) (iota k m) = Some w'
            & solved self u xs dim_v w'.
Proof.
elim: m k w => [|m IH] k w.
  by rewrite addn0 => -> sw; exists w.
rewrite addnS -addSn => km sw /=.
have kd : (k < dim_v)%N by rewrite -km leq_addr.
rewrite (forward_w_body_ord self u xs w (Ordinal kd)).
by apply: IH => //; apply: (solved_step (i := Ordinal kd)).
Qed.

Lemma forward_w_rows b self (u : 'M[R]_(1, dim_in)) (xs : 'M[R]_(b, dim_x)) :
  (0 < dim_v)%N ->
  exists2 w, forward_w self u xs = Some w
           & forall r i, w r i = act self (row_equation self u xs w r i).
Proof.
move=> q0; rewrite /forward_w (forward_w_first_ord _ _ _ (i0 := Ordinal q0)) //.
have [|w -> [hw _]] := forward_w_loop (m := dim_v - 1) _
                         (solved_first self u xs (i0 := Ordinal q0) erefl).
  by rewrite add1n subn1 prednK.
by exists w => // r i; apply: hw.
Qed.

(** With [D11] strictly lower triangular the row equations are the
    implicit equation. *)
Lemma implicit_rhs_rows b self (u : 'M[R]_(1, dim_in)) (xs : 'M[R]_(b, dim_x))
    (w : 'M[R]_(b, dim_v)) r i :
  (forall i j : 'I_dim_v, (i <= j)%N -> D11 self i j = 0) ->
  implicit_rhs self u xs w r i = act self (row_equation self u xs w r i).
Proof.
move=> tri; rewrite /implicit_rhs mxE; congr (act self _).
rewrite /row_equation /ones 3!addmxE; congr (_ + _ + _ + _).
- by rewrite mxE; apply: eq_bigr => j _; rewrite mxE mulrC.
- rewrite mxE [RHS]big_mkcond; apply: eq_bigr => l _.
  by rewrite mxE mulrC; case: ltnP => // /tri ->; rewrite mul0r.
- rewrite mxE big_ord1 mxE mul1r mxE; apply: eq_bigr => j _.
  by rewrite mxE mulrC.
- by rewrite mxE big_ord1 mxE mul1r mxE.
Qed.

(** C3: for every state [x], input [u] and derived matrices with [D11]
    strictly lower triangular, the loop of [forward] returns a feedback
    vector [w] (for an implicit layer of at least one unit) that satisfies
    [w = act (C1 x + D11 w + D12 u + bv)] exactly, row [i] being
    [act (C1[i,:] @ x + sum_{j<i} D11[i,j] * w_j + D12[i,:] @ u + bv[i])];
    the loop runs each row once and has no way to fail to converge. *)
Theorem forward_w_exact b self (u : 'M[R]_(1, dim_in))
    (xs : 'M[R]_(b, dim_x)) :
  (0 < dim_v)%N ->
  (forall i j : 'I_dim_v, (i <= j)%N -> D11 self i j = 0) ->
  exists2 w, forward_w self u xs = Some w
           & (forall r i, w r i = act self (row_equation self u xs w r i))
             /\ w = implicit_rhs self u xs w.
Proof.
move=> q0 tri; have [w fw hw] := forward_w_rows self u xs q0.
exists w => //; split=> //.
by apply/matrixP => r i; rewrite implicit_rhs_rows.
Qed.

End Forward.

(** ** The derivative returned by [forward] *)

Section ForwardResult.

Variable R : realFieldType.
Variables dim_in dim_out dim_x dim_v : nat.

Lemma foldl_obind_None (T S : Type) (f : T -> S -> option T) (s : seq S) :
  foldl (fun ow i => obind (fun w => f w i) ow) None s = None.
Proof. by elim: s. Qed.

(** The input [u] of [forward] is the zero tensor of width 2: on a network
    whose input width is not 2 the first [F.linear(u, self.D12[0, :])]
    raises. *)
Lemma forward_wrong_width b (self : CREN R dim_in dim_out dim_x dim_v)
    (t : R) (xs : 'M[R]_(b, dim_x)) :
  dim_in != 2 -> forward self t xs = None.
Proof.
move=> d2; rewrite /forward /forward_w.
suff -> : forward_w_first self (zeros R 1 2) xs = None.
  by rewrite foldl_obind_None.
rewrite /forward_w_first /linear1_dyn.
case: (setitem _ _ _ _) => //= vec; case: (getrow (C1 self) 0) => //= c1.
case: (getrow (bv self) 0) => //= bv0; case: (getrow (D12 self) 0) => //= d12.
by rewrite linear_dyn_diff // eq_sym.
Qed.


End ForwardResult.

Section ForwardWidth2.

Variable R : realFieldType.
Variables dim_out dim_x dim_v : nat.

(** C5, what the code does: on a network of input width 2, [forward]
    returns [A x + B1 w + bx] for the feedback [w] of the zero input; the
    term [B2 u] is identically zero and no external input reaches the
    result. *)
Theorem forward_input_blind b (self : CREN R 2 dim_out dim_x dim_v)
    (t : R) (xs : 'M[R]_(b, dim_x)) :
  forward self t xs
  = omap (fun w => xs *m (A self)^T + w *m (B1 self)^T
                   + ones R b 1 *m (bx self)^T)
         (forward_w self (0 : 'M[R]_(1, 2)) xs).
Proof.
rewrite /forward /zeros -[const_mx 0]/(0 : 'M[R]_(1, 2)).
case: (forward_w _ _ _) => //= w; rewrite linear_dyn_same /=; congr Some.
rewrite /badd_rows /linear mul0mx (_ : \matrix_(i, j) _ = 0) ?addr0 //.
by apply/matrixP => i j; rewrite !mxE.
Qed.

End ForwardWidth2.

(** ** The implicit layer on the concrete network, over the rationals *)

Lemma forward_w_exact_witness :
  let self := (update_model_param (example (R := rat) id)).2 in
  let u : 'M[rat]_(1, 2) := const_mx 1 in
  let xs : 'M[rat]_(1, 2) := const_mx 1 in
  exists2 w, forward_w self u xs = Some w
           & (forall r i, w r i = act self (row_equation self u xs w r i))
             /\ w = implicit_rhs self u xs w.
Proof.
apply: forward_w_exact => // i j ij.
rewrite update_model_param_state ?updated_D11_entry ?example_epsilon_gt0 //.
by rewrite ltnNge ij.
Defined.


(** ** Shapes in [forward] *)

Section ShapeFacts.

Variables dim_in dim_out dim_x dim_v : nat.

Lemma foldl_obind_Some (T : Type) (f : T -> nat -> option T) (w : T)
    (s : seq nat) :
  (forall i, i \in s -> f w i = Some w) ->
  foldl (fun ow i => obind (fun w0 => f w0 i) ow) (Some w) s = Some w.
Proof.
elim: s => //= i s IH h; rewrite h ?mem_head //.
by apply: IH => j js; rewrite h // inE js orbT.
Qed.

Lemma linear_shape_1d (s : shape) k :
  linear_shape (rcons s k) [:: k] = Some s.
Proof. by rewrite /linear_shape rev_rcons eqxx revK. Qed.

Lemma linear_shape_mx (s : shape) k o :
  linear_shape (rcons s k) [:: o; k] = Some (rcons s o).
Proof. by rewrite /linear_shape rev_rcons eqxx rev_cons revK. Qed.

Lemma linear_shape_bad (s : shape) k k' o :
  k != k' -> linear_shape (rcons s k) [:: o; k'] = None.
Proof. by rewrite /linear_shape rev_rcons => /negbTE ->. Qed.

Lemma linear_shape_bad1 (s : shape) k k' :
  k != k' -> linear_shape (rcons s k) [:: k'] = None.
Proof. by rewrite /linear_shape rev_rcons => /negbTE ->. Qed.

Lemma broadcast_rev_same s : broadcast_rev s s = Some s.
Proof. by elim: s => //= a s ->; rewrite eqxx. Qed.

Lemma broadcast_same s : broadcast s s = Some s.
Proof. by rewrite /broadcast broadcast_rev_same /= revK. Qed.

Lemma broadcast_1l b : broadcast [:: 1%N] [:: b] = Some [:: b].
Proof.
rewrite /broadcast /rev /=; case: eqP => [<-|_] //=.
by case: eqP => [->|_].
Qed.

Lemma broadcast_1r b : broadcast [:: b] [:: 1%N] = Some [:: b].
Proof. by rewrite /broadcast /rev /= orbT. Qed.

Lemma broadcast_row b n : broadcast [:: b; n] [:: 1%N; n] = Some [:: b; n].
Proof. by rewrite /broadcast /rev /= eqxx /= orbT. Qed.

Lemma getrow_shape_in r c i :
  (i < r)%N -> getrow_shape [:: r; c] i = Some [:: c].
Proof. by rewrite /getrow_shape => ->. Qed.

Lemma setitem_shape_in r i :
  (i < r)%N -> setitem_shape [:: r; 1%N] i 0 = Some [:: r; 1%N].
Proof. by rewrite /setitem_shape => ->. Qed.

Lemma unsqueeze_shape_1 a (s : shape) :
  unsqueeze_shape 1 (a :: s) = Some (a :: 1%N :: s).
Proof. by rewrite /unsqueeze_shape /= take0 drop0. Qed.

Arguments linear_shape : simpl never.
Arguments broadcast : simpl never.
Arguments getrow_shape : simpl never.
Arguments setitem_shape : simpl never.
Arguments unsqueeze_shape : simpl never.

Ltac shape_step :=
  rewrite ?broadcast_same ?broadcast_1l ?broadcast_1r ?broadcast_row
          ?unsqueeze_shape_1 ?(linear_shape_1d [:: _])
          ?(linear_shape_1d [:: _; _]) ?(linear_shape_mx [:: _])
          ?(linear_shape_mx [:: _; _]) /= /rev /=.

(** The loop body keeps the shape (b, dim_v) of [w]. *)
Lemma forward_w_body_shape_2d b i :
  (i < dim_v)%N ->
  forward_w_body_shape 2 dim_x dim_v [:: 1%N; 2] [:: b; dim_x] b
    [:: b; dim_v] i = Some [:: b; dim_v].
Proof.
move=> iq; rewrite /forward_w_body_shape setitem_shape_in //=.
by rewrite !getrow_shape_in //=; do 8!shape_step.
Qed.

Lemma forward_shape_2d b :
  forward_shape dim_in dim_x dim_v [:: b; dim_x]
  = if (dim_in == 2) && (0 < dim_v)%N then Some [:: b; dim_x] else None.
Proof.
rewrite /forward_shape /forward_w_first_shape /=.
case: (posnP dim_v) => [->|q0]; first by rewrite andbF.
rewrite andbT setitem_shape_in //= !getrow_shape_in //=.
do 2!shape_step.
case: eqP => [->|/eqP d2] /=; last first.
  by rewrite (@linear_shape_bad1 [:: 1%N]) // eq_sym.
do 6!shape_step.
rewrite (@foldl_obind_Some _ _ [:: b; dim_v]) /= => [i|].
  rewrite mem_iota add1n subn1 prednK // => /andP [_ iq].
  exact: forward_w_body_shape_2d.
by do 8!shape_step.
Qed.

Lemma broadcast_col b : broadcast [:: b; 1%N] [:: b] = Some [:: b; b].
Proof.
rewrite /broadcast /rev /=; case: eqP => [<-|_] //=.
by case: eqP => [->|_].
Qed.

Lemma broadcast_sq1 a b : broadcast [:: a; b] [:: 1%N] = Some [:: a; b].
Proof. by rewrite /broadcast /rev /= orbT. Qed.

Lemma broadcast_lift a b : broadcast [:: a; b] [:: 1%N; 1%N; b] = Some [:: 1%N; a; b].
Proof. by rewrite /broadcast /rev /= eqxx /= orbT. Qed.

Lemma broadcast_3_2 n :
  broadcast [:: 1%N; 1%N; n] [:: 1%N; n] = Some [:: 1%N; 1%N; n].
Proof. by rewrite /broadcast /rev /= eqxx. Qed.

(** On a state of shape (b, 1, dim_x) with [b > 1], the sum in line 140
    broadcasts (b, 1) with (b) to (b, b), and [F.linear(self.act(v), vec)]
    raises on the last dimension [b] of [v]. *)
Lemma forward_shape_3d_batch b :
  (1 < b)%N -> forward_shape dim_in dim_x dim_v [:: b; 1%N; dim_x] = None.
Proof.
move=> b1; rewrite /forward_shape /forward_w_first_shape /=.
case: (posnP dim_v) => [->|q0] //.
rewrite setitem_shape_in //= !getrow_shape_in //=.
rewrite (linear_shape_1d [:: b; 1%N]) /= broadcast_1l /=.
case: (dim_in =P 2) => [->|/eqP d2] /=; last first.
  by rewrite (@linear_shape_bad1 [:: 1%N]) // eq_sym.
rewrite ?(linear_shape_1d [:: 1%N]) /= /rev /= broadcast_col /=.
rewrite broadcast_sq1 /=.
rewrite ?unsqueeze_shape_1 /= (@linear_shape_bad [:: b; 1%N] b 1 dim_v) //.
by rewrite neq_ltn b1 orbT.
Qed.

(** With a single initial state the same lines go through. *)
Lemma forward_w_body_shape_3d i :
  (i < dim_v)%N ->
  forward_w_body_shape 2 dim_x dim_v [:: 1%N; 2] [:: 1%N; 1%N; dim_x] 1
    [:: 1%N; 1%N; dim_v] i = Some [:: 1%N; 1%N; dim_v].
Proof.
move=> iq; rewrite /forward_w_body_shape setitem_shape_in //=.
by rewrite !getrow_shape_in //=; do 8!shape_step.
Qed.

Lemma forward_shape_3d_single :
  forward_shape dim_in dim_x dim_v [:: 1%N; 1%N; dim_x]
  = if (dim_in == 2) && (0 < dim_v)%N then Some [:: 1%N; 1%N; dim_x]
    else None.
Proof.
rewrite /forward_shape /forward_w_first_shape /=.
case: (posnP dim_v) => [->|q0]; first by rewrite andbF.
rewrite andbT setitem_shape_in //= !getrow_shape_in //=.
do 2!shape_step.
case: eqP => [->|/eqP d2] /=; last first.
  by rewrite (@linear_shape_bad1 [:: 1%N]) // eq_sym.
do 6!shape_step; rewrite ?broadcast_lift /=.
rewrite (@foldl_obind_Some _ _ [:: 1%N; 1%N; dim_v]) /= => [i|].
  rewrite mem_iota add1n subn1 prednK // => /andP [_ iq].
  exact: forward_w_body_shape_3d.
do 8!shape_step.
by rewrite broadcast_3_2 /= broadcast_3_2.
Qed.

(** [set_y_init] stores a state with the batch dimension of [y_init]. *)
Lemma set_y_init_shape_batch b :
  set_y_init_shape dim_out dim_x [:: b; 1%N; dim_out]
  = Some [:: b; 1%N; dim_x].
Proof.
by rewrite /set_y_init_shape /lstsq_shape /= eqxx /= unsqueeze_shape_1.
Qed.

End ShapeFacts.

(** C7, what the code does: for a batch of 4 targets [set_y_init] stores a
    state of shape (4, 1, dim_x), and the first evaluation of [forward] on
    it raises, whatever the dimensions of the network; a single initial
    state goes through and keeps its shape. *)
Theorem forward_batch4_raises (dim_in dim_out dim_x dim_v : nat) :
  [/\ set_y_init_shape dim_out dim_x [:: 4; 1%N; dim_out]
      = Some [:: 4; 1%N; dim_x],
      forward_shape dim_in dim_x dim_v [:: 4; 1%N; dim_x] = None
    & forward_shape 2 dim_x dim_v.+1 [:: 1%N; 1%N; dim_x]
      = Some [:: 1%N; 1%N; dim_x]].
Proof.
split; first exact: set_y_init_shape_batch.
  exact: forward_shape_3d_batch.
by rewrite forward_shape_3d_single.
Qed.

(** The reshape of [forward_trajectory] on two time samples of four batch
    elements: row 0 of the result holds the first two batch elements at time
    0, not the two samples of batch element 0. *)
Lemma forward_trajectory_reshape_mixes_rows (T : Type)
    (y00 y01 y02 y03 y10 y11 y12 y13 : T) :
  let out := [:: [:: [:: [:: y00]]; [:: [:: y01]]; [:: [:: y02]];
                     [:: [:: y03]]];
                 [:: [:: [:: y10]]; [:: [:: y11]]; [:: [:: y12]];
                     [:: [:: y13]]]] in
  forward_trajectory_reshape out 2 4 1
  = [:: [:: [:: y00]; [:: y01]]; [:: [:: y02]; [:: y03]];
        [:: [:: y10]; [:: y11]]; [:: [:: y12]; [:: y13]]]
  /\ trajectory_of out 0 = [:: [:: y00]; [:: y10]].
Proof. by []. Qed.

(** ** The initial state set by [set_y_init] *)

Section InitialState.

Variable R : realFieldType.
Variables dim_in dim_out dim_x dim_v : nat.
Variable lstsq :
  forall p n b : nat, 'M[R]_(p, n) -> 'M[R]_(p, b) -> 'M[R]_(n, b).

Local Notation CREN := (CREN R dim_in dim_out dim_x dim_v).

Implicit Type self : CREN.

Lemma sqnorm0 n : sqnorm (0 : 'rV[R]_n) = 0.
Proof. by rewrite /sqnorm big1 // => k _; rewrite mxE expr0n. Qed.

Lemma set_y_init_x self b (y_init : batched R b dim_out) :
  x (set_y_init lstsq y_init self).2
  = existT _ b (lstsq (C2 self) (squeeze_1 y_init)^T)^T.
Proof. by case: self. Qed.

(** The residual of a column against column [i] of the transposed targets
    is the output error of the corresponding row. *)
Lemma residual_row self b (y : 'M[R]_(b, dim_out)) (i : 'I_b)
    (c : 'cV[R]_dim_x) :
  (C2 self *m c - col i y^T)^T = output self c^T - row i y.
Proof. by rewrite linearB /= trmx_mul tr_col trmxK. Qed.

(** C6: for every target [y_init], [set_y_init] stores for each batch row
    an initial state that solves the least-squares problem
    [C2 @ x0 = y0], and whenever the problem has solutions (as it does for
    [dim_x > dim_out] and [C2] of full rank) the stored state is a solution
    and has the least Euclidean norm of all of them, provided the library
    routine [torch.linalg.lstsq] meets its contract on the call made. *)
Theorem set_y_init_min_norm self b (y_init : batched R b dim_out) :
  lstsq_contract lstsq (C2 self) (squeeze_1 y_init)^T ->
  exists2 x0 : 'M[R]_(b, dim_x),
    x (set_y_init lstsq y_init self).2 = existT _ b x0
  & forall i : 'I_b,
      (forall x' : 'rV[R]_dim_x,
         sqnorm (output self (row i x0) - row i y_init)
         <= sqnorm (output self x' - row i y_init))
      /\ (forall x' : 'rV[R]_dim_x, output self x' = row i y_init ->
            output self (row i x0) = row i y_init
            /\ sqnorm (row i x0) <= sqnorm x').
Proof.
move=> hc; rewrite set_y_init_x.
set X := lstsq _ _; exists X^T => // i.
have [hls hmin] := hc i.
have x0E : row i X^T = (col i X)^T by rewrite tr_col.
have ls x' : sqnorm (output self (row i X^T) - row i y_init)
             <= sqnorm (output self x' - row i y_init).
  by have := hls x'^T; rewrite !residual_row trmxK -x0E.
split=> // x' hx'.
have ls' : least_squares (C2 self) (col i (squeeze_1 y_init)^T) x'^T.
  by move=> z; rewrite residual_row trmxK hx' subrr sqnorm0 sqnorm_ge0.
split; last by have := hmin _ ls'; rewrite trmxK -x0E.
apply/subr0_eq/sqnorm_eq0/eqP; rewrite eq_le sqnorm_ge0 andbT.
by have := ls x'; rewrite hx' subrr sqnorm0.
Qed.

End InitialState.

(** ** The routine for full row rank meets the contract *)

Section PseudoInverseFacts.

Variable R : realFieldType.

Lemma sqnorm_add_orth n (s d : 'cV[R]_n) :
  s^T *m d = 0 -> sqnorm (s + d)^T = sqnorm s^T + sqnorm d^T.
Proof.
move=> sd; rewrite -!mulmx_tr_sqnorm !trmxK.
rewrite [(s + d)^T]linearD /= mulmxDl !mulmxDr.
rewrite sd addr0 -[d^T *m s]trmxK trmx_mul trmxK sd trmx0 add0r.
by rewrite mxE.
Qed.

Lemma lstsq_full_row_rank_contract p n b (A : 'M[R]_(p, n))
    (B : 'M[R]_(p, b)) :
  A *m A^T \in unitmx -> lstsq_contract (@lstsq_full_row_rank R) A B.
Proof.
move=> uG j; set s := col j (lstsq_full_row_rank A B); set y := col j B.
have sE : s = A^T *m (invmx (A *m A^T) *m y).
  by rewrite /s /y colE /lstsq_full_row_rank -!mulmxA -colE.
have As : A *m s = y by rewrite sE !mulmxA mulmxV // mul1mx.
have res0 : sqnorm (A *m s - y)^T = 0 by rewrite As subrr trmx0 sqnorm0.
split=> [x'|x' lsx]; first by rewrite res0 sqnorm_ge0.
have Ax : A *m x' = y.
  have /sqnorm_eq0 h : sqnorm (A *m x' - y)^T = 0.
    by apply/eqP; rewrite eq_le sqnorm_ge0 andbT -res0; apply: lsx.
  by apply/subr0_eq; rewrite -[LHS]trmxK h trmx0.
have sd : s^T *m (x' - s) = 0.
  rewrite {1}sE trmx_mul trmxK -mulmxA mulmxBr Ax As subrr mulmx0.
  by [].
by rewrite -[x'](subrK s) addrC sqnorm_add_orth // lerDl sqnorm_ge0.
Qed.

End PseudoInverseFacts.

(** ** [set_y_init] on the concrete network, over the rationals *)

Lemma example_C2_full_rank (R : realFieldType) (tanh : R -> R) :
  C2 (example tanh) *m (C2 (example tanh))^T \in unitmx.
Proof.
rewrite unitmxE det_mx11 mxE unitfE (eq_bigr (fun=> 1)) => [j _|].
  by rewrite /= !mxE !mulr1.
by rewrite sumr_const card_ord pnatr_eq0.
Qed.

Lemma set_y_init_min_norm_witness :
  let self := example (R := rat) id in
  let y_init : batched rat 1 1 := const_mx 1 in
  exists2 x0 : 'M[rat]_(1, 2),
    x (set_y_init (@lstsq_full_row_rank rat) y_init self).2 = existT _ 1%N x0
  & forall i : 'I_1,
      (forall x' : 'rV[rat]_2,
         sqnorm (output self (row i x0) - row i y_init)
         <= sqnorm (output self x' - row i y_init))
      /\ (forall x' : 'rV[rat]_2, output self x' = row i y_init ->
            output self (row i x0) = row i y_init
            /\ sqnorm (row i x0) <= sqnorm x').
Proof.
apply: set_y_init_min_norm; apply: lstsq_full_row_rank_contract.
exact: example_C2_full_rank.
Defined.

(** ** More on the projector: recomputation *)

Section Recompute.

Variable R : realFieldType.
Variables dim_in dim_out dim_x dim_v : nat.

Local Notation CREN := (CREN R dim_in dim_out dim_x dim_v).

Implicit Type self : CREN.

(** The three ways the method can end. *)
Lemma update_model_param_cases self :
  update_model_param self
  = if local_P self \in unitmx then
      if local_Lambda self \in unitmx then (Some tt, updated self)
      else (None, set_A (invmx (local_P self) *m local_Y self)
                    (set_P (local_P self) self))
    else (None, set_P (local_P self) self).
Proof.
rewrite /update_model_param /Method.bind /Method.get /Method.lift.
rewrite /Method.modify /inverse /=.
case: ifP => _ //=; case: ifP => _ //=; last by rewrite linear_trR.
by rewrite /updated !linear_trR.
Qed.

(** The local variables only read attributes the method does not assign. *)
Lemma local_P_set_P self v : local_P (set_P v self) = local_P self.
Proof. by case: self. Qed.

Lemma local_P_set_A self v w :
  local_P (set_A v (set_P w self)) = local_P self.
Proof. by case: self. Qed.

Lemma local_Lambda_set_A self v w :
  local_Lambda (set_A v (set_P w self)) = local_Lambda self.
Proof. by case: self. Qed.

Lemma local_Y_set_A self v w :
  local_Y (set_A v (set_P w self)) = local_Y self.
Proof. by case: self. Qed.

Lemma local_P_updated self : local_P (updated self) = local_P self.
Proof. by case: self. Qed.

Lemma local_Lambda_updated self :
  local_Lambda (updated self) = local_Lambda self.
Proof. by case: self. Qed.

Lemma set_P_set_P self v : set_P v (set_P v self) = set_P v self.
Proof. by case: self. Qed.

Lemma set_A_set_A self v w :
  set_A v (set_P w (set_A v (set_P w self))) = set_A v (set_P w self).
Proof. by case: self. Qed.

Lemma updated_updated self : updated (updated self) = updated self.
Proof. by case: self. Qed.

(** X1: recomputing the derived matrices twice in a row is the same as
    recomputing them once, in the result and in the object left behind,
    whether the method returns or raises. *)
Theorem update_model_param_idempotent self :
  update_model_param (update_model_param self).2 = update_model_param self.
Proof.
rewrite (update_model_param_cases self).
case hP: (local_P self \in unitmx); last first.
  by rewrite update_model_param_cases /= local_P_set_P hP set_P_set_P.
case hL: (local_Lambda self \in unitmx); last first.
  rewrite update_model_param_cases /= local_P_set_A local_Lambda_set_A.
  by rewrite local_Y_set_A hP hL set_A_set_A.
rewrite update_model_param_cases /= local_P_updated local_Lambda_updated.
by rewrite hP hL updated_updated.
Qed.




End Recompute.



(** ** The contraction certificate behind [update_model_param] *)

Section Certificate.

Variable R : realFieldType.
Variables dim_in dim_out dim_x dim_v : nat.

Local Notation CREN := (CREN R dim_in dim_out dim_x dim_v).

Implicit Type self : CREN.

Lemma local_H_sym self : (local_H self)^T = local_H self.
Proof. by rewrite /local_H /eye linearD /= linearZ /= linear_sym trmx1. Qed.

Lemma local_H_block self :
  block_mx (local_H1 self) (local_H2 self) (local_H3 self) (local_H4 self)
  = local_H self.
Proof. exact: submxK. Qed.

Lemma local_H1_sym self : (local_H1 self)^T = local_H1 self.
Proof.
by apply/matrixP => i j; rewrite trmxE !local_H1_entry -[LHS]trmxE local_H_sym.
Qed.

Lemma local_H4_sym self : (local_H4 self)^T = local_H4 self.
Proof.
by apply/matrixP => i j; rewrite trmxE !local_H4_entry -[LHS]trmxE local_H_sym.
Qed.

Lemma local_H3_tr self : local_H3 self = (local_H2 self)^T.
Proof.
apply/matrixP => i j; rewrite trmxE local_H2_entry -[RHS]trmxE local_H_sym.
by rewrite /local_H3 /split0 /split1 /= !mxE.
Qed.

Lemma local_Lambda_sym self : (local_Lambda self)^T = local_Lambda self.
Proof. by rewrite local_LambdaE tr_diag_mx. Qed.

Lemma local_Lambda_entry self (i j : 'I_dim_v) :
  local_Lambda self i j = (2^-1 * local_H4 self i i) *+ (i == j).
Proof. by rewrite local_LambdaE !mxE. Qed.

(** [H4] is its diagonal plus its strict lower part and the transpose of
    the latter. *)
Lemma local_H4_split self :
  local_H4 self
  = 2 *: local_Lambda self + tril (local_H4 self) (-1)
    + (tril (local_H4 self) (-1))^T.
Proof.
apply/matrixP => i j; rewrite 2!addmxE scalemxE trmxE !tril_m1_entry.
rewrite local_Lambda_entry -val_eqE /=.
case: (ltngtP i j) => [lt|gt|/val_inj eq].
- by rewrite mulr0n mulr0 !add0r -trmxE local_H4_sym.
- by rewrite mulr0n mulr0 add0r addr0.
- by rewrite eq mulr1n !addr0 mulrA divff ?mul1r // pnatr_eq0.
Qed.

Lemma local_H_quad self (v : 'rV[R]_(dim_x + dim_v)) :
  epsilon self * sqnorm v <= (v *m local_H self *m v^T) 0 0.
Proof.
rewrite /local_H -[linear _ _]scale1r; exact: quad_gram_ge.
Qed.

Lemma sqnorm_row_mx0 n q (v : 'rV[R]_n) :
  sqnorm (row_mx v (0 : 'rV[R]_q)) = sqnorm v.
Proof.
by rewrite -!mulmx_tr_sqnorm tr_row_mx mul_row_col mul0mx addr0.
Qed.

Lemma local_H1_quad self (v : 'rV[R]_dim_x) :
  epsilon self * sqnorm v <= (v *m local_H1 self *m v^T) 0 0.
Proof.
have := local_H_quad self (row_mx v 0).
rewrite sqnorm_row_mx0 -local_H_block mul_row_block tr_row_mx mul_row_col.
by rewrite !mul0mx !addr0 trmx0 mulmx0 addr0.
Qed.

(** What the stored matrices satisfy, in terms of the method's locals. *)
Lemma updated_PA self :
  0 < epsilon self -> P (updated self) *m A (updated self) = local_Y self.
Proof.
by move=> e0; rewrite updated_P updated_A mulKVmx // local_P_unit.
Qed.

Lemma updated_PB1 self :
  0 < epsilon self -> P (updated self) *m B1 (updated self) = local_Z self.
Proof.
by move=> e0; rewrite updated_P updated_B1 mulKVmx // local_P_unit.
Qed.

Lemma updated_LC1 self :
  0 < epsilon self ->
  local_Lambda self *m C1 (updated self) = (Chi self)^T.
Proof.
by move=> e0; rewrite updated_C1 mulKVmx // local_Lambda_unit.
Qed.

Lemma updated_LD11 self :
  0 < epsilon self ->
  local_Lambda self *m D11 (updated self) = - tril (local_H4 self) (-1).
Proof.
by move=> e0; rewrite updated_D11 mulmxN mulKVmx // local_Lambda_unit.
Qed.

Lemma updated_contraction_rate_lb self :
  contraction_rate_lb (updated self) = contraction_rate_lb self.
Proof. by case: self. Qed.

Lemma local_Y_sum self :
  local_Y self + (local_Y self)^T
  = - (local_H1 self + contraction_rate_lb self *: local_P self).
Proof.
have hH i j : local_H1 self j i = local_H1 self i j.
  by rewrite -[LHS]trmxE local_H1_sym.
have hP i j : local_P self j i = local_P self i j.
  by rewrite -[LHS]trmxE local_P_sym.
apply/matrixP => i j; rewrite addmxE trmxE /local_Y !scalemxE oppmxE.
rewrite !addmxE !oppmxE !trmxE !scalemxE (hH i j) (hP i j).
move: (local_H1 self i j) (local_P self i j) (Y1 self i j) (Y1 self j i).
by move=> a b c d; field.
Qed.

(** X4: after [update_model_param] with [epsilon > 0] the stored
    [A, B1, C1, D11, P], together with the diagonal [Lambda] the method
    computes, satisfy the contraction matrix inequality: the block matrix
    [[-A^T P - P A - c P, -C1^T Lambda - P B1],
      [-Lambda C1 - B1^T P, 2 Lambda - Lambda D11 - D11^T Lambda]]
    is exactly [H = X X^T + epsilon I], hence positive definite. *)
Theorem update_model_param_certificate self :
  0 < epsilon self ->
  let s := (update_model_param self).2 in
  let L := local_Lambda self in
  let M :=
    block_mx (- ((A s)^T *m P s) - P s *m A s - contraction_rate_lb s *: P s)
             (- ((C1 s)^T *m L) - P s *m B1 s)
             (- (L *m C1 s) - (B1 s)^T *m P s)
             (2 *: L - L *m D11 s - (D11 s)^T *m L) in
  M = linear (X self) (X self) + epsilon self *: eye R (dim_x + dim_v)
  /\ forall v : 'rV[R]_(dim_x + dim_v), v != 0 -> 0 < (v *m M *m v^T) 0 0.
Proof.
move=> e0; rewrite update_model_param_state //=.
set M := block_mx _ _ _ _.
have -> : M = local_H self.
  rewrite -local_H_block /M; congr block_mx.
  - have -> : (A (updated self))^T *m P (updated self)
              = (P (updated self) *m A (updated self))^T.
      by rewrite trmx_mul updated_P local_P_sym.
    rewrite updated_PA // -opprD [_^T + _]addrC local_Y_sum opprK.
    by rewrite updated_contraction_rate_lb updated_P addrK.
  - have -> : (C1 (updated self))^T *m local_Lambda self
              = (local_Lambda self *m C1 (updated self))^T.
      by rewrite trmx_mul local_Lambda_sym.
    rewrite updated_LC1 // trmxK updated_PB1 // /local_Z.
    move: (local_H2 self) (Chi self) => a b.
    by apply/matrixP => i j; rewrite !mxE; ring.
  - have -> : (B1 (updated self))^T *m P (updated self)
              = (P (updated self) *m B1 (updated self))^T.
      by rewrite trmx_mul updated_P local_P_sym.
    rewrite updated_LC1 // updated_PB1 // /local_Z local_H3_tr.
    move: (local_H2 self) (Chi self) => a b.
    by apply/matrixP => i j; rewrite !mxE; ring.
  - have -> : (D11 (updated self))^T *m local_Lambda self
              = (local_Lambda self *m D11 (updated self))^T.
      by rewrite trmx_mul local_Lambda_sym.
    by rewrite updated_LD11 // opprK (linearN trmx) opprK -local_H4_split.
split=> // v v0; apply: lt_le_trans (local_H_quad self v).
by rewrite mulr_gt0 // sqnorm_gt0.
Qed.

(** X5: the Lyapunov inequality for the linear part [F.linear(x, A)] of
    the vector field: with [V(v) = v P v^T], the derivative of [V] along
    [v A^T] is at most [- c V(v) - epsilon |v|^2]. *)
Theorem update_model_param_lyapunov self (v : 'rV[R]_dim_x) :
  0 < epsilon self ->
  let s := (update_model_param self).2 in
  (linear v (A s) *m P s *m v^T) 0 0
  + (v *m P s *m (linear v (A s))^T) 0 0
  <= - (contraction_rate_lb self * (v *m P s *m v^T) 0 0)
     - epsilon self * sqnorm v.
Proof.
move=> e0; rewrite update_model_param_state //= /linear.
set Y := local_Y self.
have -> : (v *m (A (updated self))^T *m P (updated self) *m v^T) 0 0
          + (v *m P (updated self) *m (v *m (A (updated self))^T)^T) 0 0
          = (v *m (Y + Y^T) *m v^T) 0 0.
  rewrite trmx_mul trmxK mulmxDr mulmxDl addmxE addrC /Y -updated_PA //.
  by rewrite trmx_mul updated_P local_P_sym !mulmxA.
rewrite /Y local_Y_sum mulmxN mulNmx oppmxE mulmxDr mulmxDl addmxE.
rewrite -scalemxAr -scalemxAl scalemxE updated_P opprD addrC.
by rewrite lerD2l lerN2; exact: local_H1_quad.
Qed.

End Certificate.

Lemma update_model_param_certificate_witness :
  let self := example (R := rat) id in
  let s := (update_model_param self).2 in
  let L := local_Lambda self in
  let M :=
    block_mx (- ((A s)^T *m P s) - P s *m A s - contraction_rate_lb s *: P s)
             (- ((C1 s)^T *m L) - P s *m B1 s)
             (- (L *m C1 s) - (B1 s)^T *m P s)
             (2 *: L - L *m D11 s - (D11 s)^T *m L) in
  0 < epsilon self
  /\ (M = linear (X self) (X self) + epsilon self *: eye rat (2 + 2)
      /\ forall v : 'rV[rat]_(2 + 2), v != 0 -> 0 < (v *m M *m v^T) 0 0).
Proof.
split; first by vm_compute.
by apply: update_model_param_certificate; vm_compute.
Defined.

Lemma update_model_param_lyapunov_witness :
  let self := example (R := rat) id in
  let s := (update_model_param self).2 in
  let v : 'rV[rat]_2 := const_mx 1 in
  0 < epsilon self
  /\ (linear v (A s) *m P s *m v^T) 0 0
     + (v *m P s *m (linear v (A s))^T) 0 0
     <= - (contraction_rate_lb self * (v *m P s *m v^T) 0 0)
        - epsilon self * sqnorm v.
Proof.
split; first by vm_compute.
by apply: update_model_param_lyapunov; vm_compute.
Defined.

(** ** More on [forward]: uniqueness, batches, equilibrium, failures *)

Section ImplicitLayer.

Variable R : realFieldType.
Variables dim_in dim_out dim_x dim_v : nat.

Local Notation CREN := (CREN R dim_in dim_out dim_x dim_v).

Implicit Type self : CREN.

(** The row equations determine a row of [w] from the same row of the
    state, column after column. *)
Lemma rows_determined b b' self (u : 'M[R]_(1, dim_in))
    (xs : 'M[R]_(b, dim_x)) (xs' : 'M[R]_(b', dim_x))
    (w : 'M[R]_(b, dim_v)) (w' : 'M[R]_(b', dim_v)) r r' :
  (forall j, xs r j = xs' r' j) ->
  (forall i, w r i = act self (row_equation self u xs w r i)) ->
  (forall i, w' r' i = act self (row_equation self u xs' w' r' i)) ->
  forall i, w r i = w' r' i.
Proof.
move=> hx hw hw' i; have [n] := ubnP (i : nat).
elim: n i => // n IH i; rewrite ltnS => ile.
rewrite hw hw'; congr (act self _); rewrite /row_equation.
congr (_ + _ + _ + _); first by apply: eq_bigr => j _; rewrite hx.
by apply: eq_bigr => l li; rewrite IH // (leq_trans li).
Qed.

(** X6: with [D11] strictly lower triangular, the implicit equation
    [w = act (C1 x + D11 w + D12 u + bv)] has exactly one solution, and
    the loop of [forward] returns it. *)
Theorem forward_w_unique b self (u : 'M[R]_(1, dim_in))
    (xs : 'M[R]_(b, dim_x)) :
  (0 < dim_v)%N ->
  (forall i j : 'I_dim_v, (i <= j)%N -> D11 self i j = 0) ->
  exists2 w, forward_w self u xs = Some w
           & forall w', w' = implicit_rhs self u xs w' <-> w' = w.
Proof.
move=> q0 tri; have [w fw hw] := forward_w_rows self u xs q0.
exists w => // w'; split=> [e|->]; last first.
  by apply/matrixP => r i; rewrite implicit_rhs_rows.
apply/matrixP => r i.
have hw' k : w' r k = act self (row_equation self u xs w' r k).
  by rewrite {1}e implicit_rhs_rows.
exact: (rows_determined (fun=> erefl) hw' (hw r)).
Qed.

(** With no unit in the implicit layer, [vec[0, 0] = 1.0] is out of
    range. *)
Lemma forward_w_no_unit b k self (u : 'M[R]_(1, k)) (xs : 'M[R]_(b, dim_x)) :
  dim_v = 0%N -> forward_w self u xs = None.
Proof.
move=> q0; rewrite /forward_w.
suff -> : forward_w_first self u xs = None by rewrite foldl_obind_None.
by rewrite /forward_w_first /setitem insubF // q0.
Qed.

End ImplicitLayer.

Section ForwardRows.

Variable R : realFieldType.
Variables dim_out dim_x dim_v : nat.

Local Notation CREN := (CREN R 2 dim_out dim_x dim_v).

Implicit Type self : CREN.

(** The result of [forward] from the feedback vector, on a network of
    input width 2. *)
Lemma forward_of_w b self (t : R) (xs : 'M[R]_(b, dim_x)) w :
  forward_w self (zeros R 1 2) xs = Some w ->
  forward self t xs
  = Some (xs *m (A self)^T + w *m (B1 self)^T + ones R b 1 *m (bx self)^T).
Proof.
rewrite /forward => -> /=; rewrite linear_dyn_same /=; congr Some.
rewrite /badd_rows /linear /zeros (_ : \matrix_(i, j) _ = 0) ?addr0 //.
apply/matrixP => i j; rewrite !mxE big1 // => k _.
by rewrite !mxE mul0r.
Qed.

Lemma forward_rowwise2 b self (t : R) (xs : 'M[R]_(b, dim_x)) (r : 'I_b) :
  omap (row r) (forward self t xs) = forward self t (row r xs).
Proof.
case: (posnP dim_v) => [q0|q0].
  by rewrite /forward !forward_w_no_unit.
have [w fw hw] := forward_w_rows self (zeros R 1 2) xs q0.
have [w1 fw1 hw1] := forward_w_rows self (zeros R 1 2) (row r xs) q0.
rewrite (forward_of_w t fw) (forward_of_w t fw1) /=; congr Some.
have -> : w1 = row r w.
  apply/rowP => i; rewrite [RHS]mxE.
  have hx j : row r xs 0 j = xs r j by rewrite mxE.
  exact: (rows_determined hx (hw1 0) (hw r)).
rewrite !linearD /= !row_mul; congr (_ + _ + _ *m _).
by apply/rowP => j; rewrite !mxE.
Qed.

(** Without bias and with an activation that vanishes at 0, the zero
    state has feedback vector 0 and derivative 0. *)
Lemma forward_zero_state b self (t : R) :
  (0 < dim_v)%N -> bx self = 0 -> bv self = 0 -> act self 0 = 0 ->
  forward self t (0 : 'M[R]_(b, dim_x)) = Some 0.
Proof.
move=> q0 hbx hbv ha.
have [w fw hw] := forward_w_rows self (zeros R 1 2) (0 : 'M[R]_(b, dim_x)) q0.
have w0 : w = 0.
  apply/matrixP => r i; rewrite [RHS]mxE; have [n] := ubnP (i : nat).
  elim: n i => // n IH i; rewrite ltnS => ile.
  rewrite hw /row_equation hbv [(0 : 'M[R]_(dim_v, 1)) i 0]mxE addr0.
  rewrite !big1 ?addr0 // => [j _|l li|j _].
  - by rewrite /zeros mxE mulr0.
  - by rewrite IH ?mulr0 // (leq_trans li).
  - by rewrite mxE mulr0.
by rewrite (forward_of_w t fw) w0 hbx !mul0mx trmx0 mulmx0 !addr0.
Qed.

Lemma forward_returns2 b self (t : R) (xs : 'M[R]_(b, dim_x)) :
  isSome (forward self t xs) = (0 < dim_v)%N.
Proof.
case: (posnP dim_v) => [q0|q0].
  by rewrite /forward forward_w_no_unit.
have [w fw _] := forward_w_rows self (zeros R 1 2) xs q0.
by rewrite (forward_of_w t fw).
Qed.

End ForwardRows.

(** X7: on a batch of states of shape (b, dim_x), [forward] works row by
    row: row [r] of the result is the result on row [r] alone, and the
    batch raises exactly when the single row does. *)
Theorem forward_rowwise (R : realFieldType) (dim_in dim_out dim_x dim_v : nat)
    b (self : CREN R dim_in dim_out dim_x dim_v) (t : R)
    (xs : 'M[R]_(b, dim_x)) (r : 'I_b) :
  omap (row r) (forward self t xs) = forward self t (row r xs).
Proof.
case: (dim_in =P 2) self => [-> self|/eqP ne self].
  exact: forward_rowwise2.
by rewrite !forward_wrong_width.
Qed.

(** X8: a network without bias ([bx = 0], [bv = 0], as [add_bias = False]
    gives) whose activation vanishes at 0 has the origin as an
    equilibrium: [forward] returns the zero derivative on the zero
    state. *)
Theorem forward_origin (R : realFieldType) (dim_out dim_x dim_v : nat) b
    (self : CREN R 2 dim_out dim_x dim_v) (t : R) :
  (0 < dim_v)%N -> bx self = 0 -> bv self = 0 -> act self 0 = 0 ->
  forward self t (0 : 'M[R]_(b, dim_x)) = Some 0.
Proof. exact: forward_zero_state. Qed.

(** X9: on a state of shape (b, dim_x), [forward] returns a derivative
    exactly when the network has input width 2 and at least one unit in
    its implicit layer; otherwise it raises. *)
Theorem forward_returns (R : realFieldType) (dim_in dim_out dim_x dim_v : nat)
    b (self : CREN R dim_in dim_out dim_x dim_v) (t : R)
    (xs : 'M[R]_(b, dim_x)) :
  isSome (forward self t xs) = (dim_in == 2) && (0 < dim_v)%N.
Proof.
case: (dim_in =P 2) self => [-> self|/eqP ne self].
  exact: forward_returns2.
by rewrite forward_wrong_width.
Qed.

Lemma forward_w_unique_witness :
  let self := (update_model_param (example (R := rat) id)).2 in
  let u : 'M[rat]_(1, 2) := const_mx 1 in
  let xs : 'M[rat]_(1, 2) := const_mx 1 in
  exists2 w, forward_w self u xs = Some w
           & forall w', w' = implicit_rhs self u xs w' <-> w' = w.
Proof.
apply: forward_w_unique => // i j ij.
rewrite update_model_param_state ?updated_D11_entry ?example_epsilon_gt0 //.
by rewrite ltnNge ij.
Defined.

Lemma forward_origin_witness :
  let self := (update_model_param (example (R := rat) id)).2 in
  forward self 0 (0 : 'M[rat]_(3, 2)) = Some 0.
Proof.
by apply: forward_origin;
   rewrite ?update_model_param_state ?example_epsilon_gt0.
Defined.

(** ** A freshly constructed network *)

Section Construction.

Variable R : realFieldType.
Variables dim_in dim_out dim_x dim_v : nat.
Variable tanh : R -> R.

Local Notation CREN := (CREN R dim_in dim_out dim_x dim_v).


End Construction.

Section ConstructionWidth2.

Variable R : realFieldType.
Variables dim_out dim_x dim_v : nat.
Variable tanh : R -> R.


End ConstructionWidth2.


(** ** The output map *)

Section OutputMap.

Variable R : realFieldType.
Variables dim_in dim_out dim_x dim_v : nat.

Local Notation CREN := (CREN R dim_in dim_out dim_x dim_v).

Implicit Type self : CREN.

(** The Cauchy-Schwarz inequality for finite sums. *)
Lemma cauchy_schwarz n (a c : 'I_n -> R) :
  (\sum_j a j * c j) ^+ 2 <= (\sum_j a j ^+ 2) * (\sum_j c j ^+ 2).
Proof.
set A := \sum_j a j ^+ 2; set B := \sum_j c j ^+ 2; set C := \sum_j a j * c j.
have A0 : 0 <= A by apply: sumr_ge0 => j _; rewrite sqr_ge0.
have q t : 0 <= t ^+ 2 * A - 2 * t * C + B.
  have -> : t ^+ 2 * A - 2 * t * C + B = \sum_j (t * a j - c j) ^+ 2.
    rewrite /A /B /C !mulr_sumr -sumrB -big_split /=.
    by apply: eq_bigr => j _; ring.
  by apply: sumr_ge0 => j _; rewrite sqr_ge0.
have [A00|An0] := eqVneq A 0.
  rewrite A00 mul0r.
  suff -> : C = 0 by rewrite expr0n.
  rewrite /C big1 // => j _.
  have /eqP := A00; rewrite /A psumr_eq0 => [i _|]; first exact: sqr_ge0.
  by move=> /allP /(_ j (mem_index_enum _)) /=; rewrite sqrf_eq0 => /eqP ->;
     rewrite mul0r.
have Ap : 0 < A by rewrite lt_def An0.
have := q (C / A); rewrite -(ler_pM2r Ap) mul0r.
suff -> : ((C / A) ^+ 2 * A - 2 * (C / A) * C + B) * A = A * B - C ^+ 2.
  by rewrite subr_ge0.
by field.
Qed.

(** One output row is bounded by the squared entries of [C2]. *)
Lemma sqnorm_output self (d : 'rV[R]_dim_x) :
  sqnorm (output self d)
  <= (\sum_i \sum_j C2 self i j ^+ 2) * sqnorm d.
Proof.
rewrite /sqnorm mulr_suml; apply: ler_sum => i _.
rewrite /output /linear mxE.
have -> : \sum_j d 0 j * (C2 self)^T j i = \sum_j C2 self i j * d 0 j.
  by apply: eq_bigr => j _; rewrite mxE mulrC.
exact: cauchy_schwarz.
Qed.

(** X11: [output] is linear and Lipschitz: the squared distance of two
    outputs is at most the sum of the squared entries of [C2] times the
    squared distance of the two states, so states that converge have
    outputs that converge. *)
Theorem output_lipschitz self (x1 x2 : 'rV[R]_dim_x) :
  output self x1 - output self x2 = output self (x1 - x2)
  /\ sqnorm (output self x1 - output self x2)
     <= (\sum_i \sum_j C2 self i j ^+ 2) * sqnorm (x1 - x2).
Proof.
have e : output self x1 - output self x2 = output self (x1 - x2).
  by rewrite /output /linear mulmxBl.
by split=> //; rewrite e; apply: sqnorm_output.
Qed.

End OutputMap.

(** ** Shapes on a batch of initial states, in general *)

Section BatchShapes.

Variables dim_in dim_out dim_x dim_v : nat.

Arguments linear_shape : simpl never.
Arguments broadcast : simpl never.
Arguments getrow_shape : simpl never.
Arguments setitem_shape : simpl never.
Arguments unsqueeze_shape : simpl never.

(** On a state of shape (b, 1, dim_x) with [b] other than 1, the sum that
    builds [v] has shape (b, b), and [F.linear(self.act(v), vec)]
    raises. *)
Lemma forward_shape_3d_other b :
  b != 1%N -> forward_shape dim_in dim_x dim_v [:: b; 1%N; dim_x] = None.
Proof.
move=> b1; rewrite /forward_shape /forward_w_first_shape /=.
case: (posnP dim_v) => [->|q0] //.
rewrite setitem_shape_in //= !getrow_shape_in //=.
rewrite (linear_shape_1d [:: b; 1%N]) /= broadcast_1l /=.
case: (dim_in =P 2) => [->|/eqP d2] /=; last first.
  by rewrite (@linear_shape_bad1 [:: 1%N]) // eq_sym.
rewrite ?(linear_shape_1d [:: 1%N]) /= /rev /= broadcast_col /=.
rewrite broadcast_sq1 /=.
by rewrite ?unsqueeze_shape_1 /= (@linear_shape_bad [:: b; 1%N] b 1 dim_v).
Qed.

(** X12: for targets [y_init] of shape (b, 1, dim_out), [set_y_init]
    stores a state of shape (b, 1, dim_x), and [forward] on that state
    returns a derivative, of the same shape, exactly when [b = 1], the
    input width is 2 and the implicit layer has a unit; for every other
    batch size it raises. *)
Theorem forward_shape_after_set_y_init b :
  obind (forward_shape dim_in dim_x dim_v)
        (set_y_init_shape dim_out dim_x [:: b; 1%N; dim_out])
  = if [&& b == 1%N, dim_in == 2 & (0 < dim_v)%N]
    then Some [:: 1%N; 1%N; dim_x] else None.
Proof.
rewrite set_y_init_shape_batch /=.
case: (b =P 1%N) => [->|/eqP b1]; first exact: forward_shape_3d_single.
exact: forward_shape_3d_other.
Qed.

End BatchShapes.

(** ** The reshape of [forward_trajectory], in general *)

Section ReshapeFacts.

Variable T : Type.

Lemma size_flatten_all d (s : seq (seq T)) :
  all (fun y => size y == d) s -> size (flatten s) = (size s * d)%N.
Proof.
elim: s => //= y s IH /andP [/eqP yd /IH e].
by rewrite size_cat yd e mulSn.
Qed.

Lemma take_flatten_all d k (s : seq (seq T)) :
  all (fun y => size y == d) s ->
  take (k * d) (flatten s) = flatten (take k s).
Proof.
elim: k s => [|k IH] [|y s] //=; first by rewrite mul0n take0.
move=> /andP [/eqP yd hs].
by rewrite mulSn take_cat yd ltnNge leq_addr /= addKn IH.
Qed.

Lemma drop_flatten_all d k (s : seq (seq T)) :
  all (fun y => size y == d) s ->
  drop (k * d) (flatten s) = flatten (drop k s).
Proof.
elim: k s => [|k IH] [|y s] //=; first by rewrite mul0n drop0.
move=> /andP [/eqP yd hs].
by rewrite mulSn drop_cat yd ltnNge leq_addr /= addKn IH.
Qed.

(** Cutting a concatenation of [n] rows of width [d] gives the rows
    back. *)
Lemma chunks_flatten d n (s : seq (seq T)) :
  all (fun y => size y == d) s -> size s = n ->
  chunks d n (flatten s) = s.
Proof.
elim: n s => [|n IH] [|y s] //= /andP [/eqP yd hs] [sn].
by rewrite take_cat drop_cat yd ltnn subnn take0 drop0 cats0 IH.
Qed.

Lemma nth_chunks k n (s : seq T) i :
  (i < n)%N -> nth [::] (chunks k n s) i = take k (drop (i * k) s).
Proof.
elim: n s i => // n IH s [|i] /=; first by rewrite mul0n drop0.
by rewrite ltnS => /IH ->; rewrite drop_drop mulSn addnC.
Qed.

(** Entry [k] of a concatenation of blocks of width [b]. *)
Lemma nth_flatten_all (x0 : T) b (s : seq (seq T)) k :
  (0 < b)%N -> all (fun y => size y == b) s ->
  nth x0 (flatten s) k = nth x0 (nth [::] s (k %/ b)) (k %% b).
Proof.
move=> b0; elim: s k => [|y s IH] k /=.
  by rewrite !nth_nil.
move=> /andP [/eqP yb hs]; rewrite nth_cat yb.
case: ltnP => [kb|bk]; first by rewrite divn_small // modn_small.
rewrite IH // -{3 4}(subnK bk) divnDr ?dvdnn // divnn b0 addn1 /=.
by rewrite modnDr.
Qed.

Lemma all_take (a : pred T) k (s : seq T) : all a s -> all a (take k s).
Proof. by rewrite -{1}(cat_take_drop k s) all_cat => /andP []. Qed.

Lemma all_drop (a : pred T) k (s : seq T) : all a s -> all a (drop k s).
Proof. by rewrite -{1}(cat_take_drop k s) all_cat => /andP []. Qed.

End ReshapeFacts.

Section ReshapeRows.

Variable T : Type.

(** The reshape from the rows: block [i] of the result is made of the
    rows [i * h] to [i * h + h - 1] of the list. *)
Lemma reshape3_rows d h b (rows : seq (seq T)) :
  all (fun y => size y == d) rows -> size rows = (b * h)%N ->
  reshape3 b h d (flatten rows) = chunks h b rows.
Proof.
rewrite /reshape3; elim: b rows => //= b IH rows hr sr.
have st : size (take h rows) = h.
  by rewrite size_takel // sr mulSn leq_addr.
rewrite take_flatten_all // drop_flatten_all // chunks_flatten ?all_take //.
by rewrite IH ?all_drop // size_drop sr mulSn addKn.
Qed.

(** On output samples of shape (horizon, b, 1, dim_out) the reshape lists
    the [horizon * b] output rows in the order time first, batch element
    second, and cuts this list into [b] consecutive blocks of [horizon]
    rows. *)
Lemma forward_trajectory_reshape_blocks
    (out : seq (seq (seq (seq T)))) (horizon b dim_out : nat) :
  size out = horizon ->
  all (fun sample => size sample == b) out ->
  all (all (fun e => size e == 1%N)) out ->
  all (all (all (fun y => size y == dim_out))) out ->
  forward_trajectory_reshape out horizon b dim_out
  = chunks horizon b (flatten (flatten out)).
Proof.
move=> so sb s1 sd; rewrite /forward_trajectory_reshape /flatten4.
apply: reshape3_rows.
  elim: out sd {so sb s1} => //= sample out IH /andP [hs /IH ho].
  rewrite flatten_cat all_cat ho andbT.
  elim: sample hs => //= e sample IHs /andP [he /IHs hs].
  by rewrite all_cat he hs.
have h1 : all (fun e => size e == 1%N) (flatten out).
  elim: out s1 {so sb sd} => //= sample out IH /andP [hs /IH ho].
  by rewrite all_cat hs ho.
by rewrite (size_flatten_all h1) muln1 (size_flatten_all sb) so mulnC.
Qed.

(** X13: on output samples of shape (horizon, b, 1, dim_out), entry
    [i][t] of the tensor [forward_trajectory] returns is the output
    sample number [(i * horizon + t) / b] of batch element
    [(i * horizon + t) % b], not sample [t] of batch element [i]. *)
Theorem forward_trajectory_reshape_index
    (out : seq (seq (seq (seq T)))) (horizon b dim_out i t : nat) :
  size out = horizon ->
  all (fun sample => size sample == b) out ->
  all (all (fun e => size e == 1%N)) out ->
  all (all (all (fun y => size y == dim_out))) out ->
  (i < b)%N -> (t < horizon)%N ->
  nth [::] (nth [::] (forward_trajectory_reshape out horizon b dim_out) i) t
  = nth [::] (nth [::] (nth [::] out ((i * horizon + t) %/ b))
                       ((i * horizon + t) %% b)) 0.
Proof.
move=> so sb s1 sd ib th.
rewrite forward_trajectory_reshape_blocks // nth_chunks // nth_take //.
rewrite nth_drop.
have h1 : all (fun e => size e == 1%N) (flatten out).
  elim: out s1 {so sb sd} => //= sample out IH /andP [hs /IH ho].
  by rewrite all_cat hs ho.
rewrite (nth_flatten_all _ _ _ h1) // divn1 modn1.
by rewrite (nth_flatten_all _ _ _ sb) // (leq_ltn_trans _ ib).
Qed.

(** X14: with a single batch element the reshape of [forward_trajectory]
    returns exactly the trajectory of that element. *)
Theorem forward_trajectory_reshape_single
    (out : seq (seq (seq (seq T)))) (horizon dim_out : nat) :
  size out = horizon ->
  all (fun sample => size sample == 1%N) out ->
  all (all (fun e => size e == 1%N)) out ->
  all (all (all (fun y => size y == dim_out))) out ->
  forward_trajectory_reshape out horizon 1 dim_out
  = [:: trajectory_of out 0].
Proof.
move=> so sb s1 sd.
have -> : trajectory_of out 0 = flatten (flatten out).
  rewrite /trajectory_of.
  elim: out sb s1 {so sd} => //= sample out IH /andP [h1 hb] /andP [h2 he].
  rewrite flatten_cat -IH //.
  case: sample h1 h2 => [|[|y [|z e]] [|e' sample]] //= _ _.
have sr : size (flatten (flatten out)) = horizon.
  have h1 : all (fun e => size e == 1%N) (flatten out).
    elim: out s1 {so sb sd} => //= sample out IH /andP [hs /IH ho].
    by rewrite all_cat hs ho.
  by rewrite (size_flatten_all h1) muln1 (size_flatten_all sb) so muln1.
rewrite [LHS]/forward_trajectory_reshape /flatten4 reshape3_rows.
- elim: out sd {so sb s1 sr} => //= sample out IH /andP [hs /IH ho].
  rewrite flatten_cat all_cat ho andbT.
  elim: sample hs => //= e sample IHs /andP [he /IHs hs].
  by rewrite all_cat he hs.
- by rewrite mul1n.
- by rewrite /= -sr take_size.
Qed.

End ReshapeRows.

Lemma forward_trajectory_reshape_index_witness :
  let out := [:: [:: [:: [:: 1%N; 2]]; [:: [:: 3; 4]]; [:: [:: 5; 6]]];
                 [:: [:: [:: 7; 8]]; [:: [:: 9; 10]]; [:: [:: 11; 12]]]] in
  nth [::] (nth [::] (forward_trajectory_reshape out 2 3 2) 0) 1
  = nth [::] (nth [::] (nth [::] out ((0 * 2 + 1) %/ 3))
                       ((0 * 2 + 1) %% 3)) 0.
Proof. by apply: forward_trajectory_reshape_index. Defined.

Lemma forward_trajectory_reshape_single_witness :
  let out := [:: [:: [:: [:: 1%N; 2]]]; [:: [:: [:: 3; 4]]];
                 [:: [:: [:: 5; 6]]]] in
  forward_trajectory_reshape out 3 1 2 = [:: trajectory_of out 0].
Proof. by apply: forward_trajectory_reshape_single. Defined.

(** ** What [get_init_params] returns for a constructed network *)

Section InitParamsFacts.

Variable R : realFieldType.
Variables dim_in dim_out dim_x dim_v : nat.
Variable tanh : R -> R.


End InitParamsFacts.

(** ** The training loop *)

Section TrainingFacts.

Variable R : realFieldType.
Variables net traj dict : Type.
Variable simulate : net -> traj.
Variable criterion : traj -> R.
Variable state_dict : net -> dict.
Variable optimize : net -> net.

Local Notation epoch_body :=
  (epoch_body simulate criterion state_dict optimize).
Local Notation for_epochs :=
  (for_epochs simulate criterion state_dict optimize).
Local Notation train := (train simulate criterion state_dict optimize).
Local Notation net_at := (net_at optimize).
Local Notation loss_at := (loss_at simulate criterion optimize).
Local Notation first_best :=
  (first_best simulate criterion state_dict optimize).
Local Notation first_argmin := (first_argmin simulate criterion optimize).
Local Notation stale := (stale simulate criterion optimize).
Local Notation training := (training R net traj dict).
Local Notation temps := (@temps R net traj dict).
Local Notation stale_at p w0 :=
  (fun e : nat => p < (e : int) - (first_argmin w0 e : int)).

Lemma pymod_0 (a : int) : pymod a 0 = None.
Proof. by []. Qed.

Lemma pymod_n0 (a b : int) : b != 0 -> exists m, pymod a b = Some m.
Proof. by rewrite /pymod /floordiv => /negbTE ->; eexists. Qed.

(** [epoch % log_epoch == 0] tests divisibility, whatever the sign of
    [log_epoch]. *)
Lemma pymod_dvd (e l : int) :
  l != 0 -> (pymod e l == Some 0) = (l %| e)%Z.
Proof.
rewrite /pymod /floordiv => /negbTE ->; rewrite (inj_eq Some_inj).
case: ltP => _.
  by rewrite mulrC -/(modz e l); apply/eqP/dvdz_mod0P.
have -> : e - l * (- e %/ - l)%Z = - (- e %% - l)%Z.
  by rewrite /modz mulrN opprB opprK addrC mulrC.
have -> : (l %| e)%Z = (- l %| - e)%Z by rewrite !dvdzE !abszN.
by rewrite oppr_eq0; apply/eqP/dvdz_mod0P.
Qed.

(** The temporaries after the test [loss < best_loss] of epoch [k]. *)
Lemma first_best_step w0 k (s : training) :
  ren_module s = net_at w0 k ->
  (if k is k'.+1
   then first_best w0 k s /\ best_train_epoch s = first_argmin w0 k'
   else best_loss s = None) ->
  let loss := criterion (simulate (ren_module s)) in
  let s1 :=
    if (if best_loss s is Some best then loss < best else true) then
      {| ren_module := ren_module s; trajectories := trajectories s;
         best_model_stat_dict := Some (state_dict (ren_module s));
         best_loss := Some loss; best_train_epoch := k |}
    else s in
  [/\ first_best w0 k.+1 s1, best_train_epoch s1 = first_argmin w0 k,
      ren_module s1 = net_at w0 k & trajectories s1 = trajectories s].
Proof.
move=> hw; rewrite [in X in _ -> X]hw -/(loss_at w0 k).
case: k hw => [hw ->|k hw [[b bk [eb el ed hmin hfirst]] ea]] /=.
  split=> //; exists 0%N => //; split=> // j.
  by rewrite ltnS leqn0 => /eqP ->.
rewrite el -ea eb; case: ltP => [lt|ge] /=.
  split=> //; exists k.+1 => //; split=> // j.
    rewrite ltnS leq_eqVlt => /orP [/eqP -> //|jk].
    by apply: ltW; apply: lt_le_trans lt (hmin _ jk).
  by move=> jk; apply: lt_le_trans lt (hmin _ jk).
split=> //; exists b; first exact: ltnW.
split=> // j; rewrite ltnS leq_eqVlt => /orP [/eqP -> //|jk].
exact: hmin.
Qed.

(** [first_best] only reads the three temporaries of the best model. *)
Lemma first_best_ext w0 n (s s' : training) :
  best_train_epoch s' = best_train_epoch s -> best_loss s' = best_loss s ->
  best_model_stat_dict s' = best_model_stat_dict s ->
  first_best w0 n s -> first_best w0 n s'.
Proof.
move=> e1 e2 e3 [b bn [h1 h2 h3 h4 h5]]; exists b => //.
by split=> //; rewrite ?e1 ?e2 ?e3.
Qed.

(** One pass through the body of the loop. *)
Lemma epoch_body_spec (p l : int) w0 k (s : training) :
  ren_module s = net_at w0 k ->
  (if k is k'.+1
   then first_best w0 k s /\ best_train_epoch s = first_argmin w0 k'
   else best_loss s = None) ->
  let r := epoch_body p l k s in
  let brk := p < (k : int) - (first_argmin w0 k : int) in
  [/\ first_best w0 k.+1 r.1,
      best_train_epoch r.1 = first_argmin w0 k,
      r.2 = (if brk then Some (Break k)
             else if l == 0 then Some (ZeroDivisionError k) else None),
      ren_module r.1 = (if brk then net_at w0 k else net_at w0 k.+1)
    & trajectories r.1
      = if ~~ brk && (l != 0) && (l %| (k : int))%Z
        then rcons (trajectories s) (simulate (net_at w0 k))
        else trajectories s].
Proof.
move=> hw hinv; have /= := first_best_step hw hinv.
rewrite /epoch_body; set s1 := (if _ then _ else s) => -[fb ba w1 t1].
rewrite ba; case: ifP => _ //=.
have [->|l0] := eqVneq l 0.
  rewrite pymod_0 /=; split=> //; last by rewrite w1.
  exact: first_best_ext fb.
rewrite -(pymod_dvd k l0); have [m ->] := pymod_n0 k l0.
rewrite (inj_eq Some_inj).
by case: ifP => _ /=; split=> //; rewrite ?w1 ?t1 ?hw //;
   apply: first_best_ext fb.
Qed.

(** The loop from epoch [k] on, when [log_epoch] is not 0: it leaves at
    the first epoch that meets the test of [break]. *)
Lemma for_epochs_spec (p l : int) w0 m k (s : training) :
  l != 0 -> ren_module s = net_at w0 k ->
  (if k is k'.+1
   then first_best w0 k s /\ best_train_epoch s = first_argmin w0 k'
   else best_loss s = None) ->
  [/\ (for_epochs p l (iota k m) s).2
      = (if (find (stale_at p w0) (iota k m) < m)%N
         then Break (k + find (stale_at p w0) (iota k m)) else Finished),
      ren_module (for_epochs p l (iota k m) s).1
      = net_at w0 (k + find (stale_at p w0) (iota k m)),
      (0 < k + m)%N ->
      first_best w0
        (if (find (stale_at p w0) (iota k m) < m)%N
         then (k + find (stale_at p w0) (iota k m)).+1 else (k + m)%N)
        (for_epochs p l (iota k m) s).1
    & trajectories (for_epochs p l (iota k m) s).1
      = trajectories s
        ++ map (fun e => simulate (net_at w0 e))
             (filter (fun e : nat => (l %| (e : int))%Z)
                (iota k (find (stale_at p w0) (iota k m))))].
Proof.
move=> l0; elim: m k s => [|m IH] k s hw hinv /=.
  rewrite addn0 cats0; split=> //; case: k hinv {hw} => // k [].
  by [].
move: (epoch_body_spec p l hw hinv) => /=.
case: (epoch_body p l k s) => s' o /= [fb ba ->].
case: ifP => brk hw' /=; first by rewrite addn0 cats0.
rewrite l0 (negbTE l0) /= => ts'.
have [-> -> hfb ->] := IH k.+1 s' hw' (conj fb ba).
rewrite ltnS -!addSnnS; split=> //.
by rewrite ts' /=; case: ifP => _ //=; rewrite cat_rcons.
Qed.


(** X17: when [log_epoch] is not 0, the loop leaves by [break] at the
    first epoch whose distance to the first best epoch so far exceeds
    [patience_epoch], and runs to the end when there is no such epoch;
    the optimizer has then made one step for each epoch before the
    [break], or for every epoch. *)
Theorem train_outcome (a : args) (w0 : net) :
  log_every a != 0 ->
  let epochs := range (total_epochs a) in
  let i := find (stale a w0) epochs in
  (train a w0).2 = (if (i < size epochs)%N then Break i else Finished)
  /\ ren_module (train a w0).1 = net_at w0 (optimized a (train a w0).2).
Proof.
move=> l0; rewrite /train /optimized.
case: (total_epochs a) => [n|n] /=; last by [].
have := for_epochs_spec (patience a) (w0 := w0) n (k := 0)
          (s := temps w0) l0 erefl erefl.
rewrite size_iota add0n => -[-> -> _ _]; split=> //.
case: ifP => // /negbT; rewrite -leqNgt => ni.
congr (net_at _ _); apply/eqP; rewrite eqn_leq ni andbT.
by rewrite -[X in (_ <= X)%N](size_iota 0 n) find_size.
Qed.

(** X18: when [log_epoch] is not 0, the list [trajectories] holds, in
    order, the simulated trajectory of each epoch that is a multiple of
    [log_epoch] among the epochs the optimizer completed; the trajectory
    of the epoch of a [break] is never logged. *)
Theorem train_trajectories (a : args) (w0 : net) :
  log_every a != 0 ->
  trajectories (train a w0).1
  = map (fun e => simulate (net_at w0 e))
      (filter (fun e : nat => (log_every a %| (e : int))%Z)
         (iota 0 (optimized a (train a w0).2))).
Proof.
move=> l0; rewrite /train /optimized.
case: (total_epochs a) => [n|n] /=; last by [].
have := for_epochs_spec (patience a) (w0 := w0) n (k := 0)
          (s := temps w0) l0 erefl erefl.
rewrite size_iota add0n => -[-> _ _ ->] /=.
case: ifP => // /negbT; rewrite -leqNgt => ni.
suff -> : find (stale_at (patience a) w0) (iota 0 n) = n by [].
apply/eqP; rewrite eqn_leq ni andbT.
by rewrite -[X in (_ <= X)%N](size_iota 0 n) find_size.
Qed.

(** X19: with the defaults of [patience_epoch] and [log_epoch], a run of
    1 to 9 epochs raises [ZeroDivisionError] in its first epoch, after
    one step of the optimizer and before any trajectory is logged:
    [log_epoch] is [total_epochs // 10 = 0]. *)
Theorem train_zero_division (a : args) (w0 : net) :
  log_epoch a = None -> patience_epoch a = None ->
  0 < total_epochs a < 10 ->
  train a w0
  = ({| ren_module := optimize w0; trajectories := [::];
        best_model_stat_dict := Some (state_dict w0);
        best_loss := Some (criterion (simulate w0));
        best_train_epoch := 0 |},
     ZeroDivisionError 0).
Proof.
move=> el ep; rewrite /train /patience /log_every el ep.
case: (total_epochs a) => // -[|n] //; rewrite ltz_nat => /andP [_ n10].
by rewrite !divz_nat (divn_small n10).
Qed.

End TrainingFacts.

(** ** The training loop on concrete losses, over the rationals

    The network is a counter that [optimize] increments, and the loss of
    the network [n] is [(n - 2)^2]. *)


Lemma train_outcome_witness :
  let a := {| total_epochs := 6; patience_epoch := Some 1%:Z;
              log_epoch := Some 2%:Z |} in
  let criterion (n : nat) : rat := (n%:R - 2) ^+ 2 in
  let r := train id criterion id succn a 0%N in
  let epochs := range (total_epochs a) in
  let i := find (stale id criterion succn a 0%N) epochs in
  r.2 = (if (i < size epochs)%N then Break i else Finished)
  /\ ren_module r.1 = net_at succn 0%N (optimized a r.2).
Proof. by apply: train_outcome. Defined.

Lemma train_zero_division_witness :
  let a := {| total_epochs := 3; patience_epoch := None;
              log_epoch := None |} in
  let criterion (n : nat) : rat := (n%:R - 2) ^+ 2 in
  train id criterion id succn a 0%N
  = ({| ren_module := 1%N; trajectories := [::];
        best_model_stat_dict := Some 0%N;
        best_loss := Some (criterion 0%N);
        best_train_epoch := 0 |},
     ZeroDivisionError 0).
Proof. by apply: train_zero_division. Defined.

Lemma train_trajectories_witness :
  let a := {| total_epochs := 6; patience_epoch := Some 1%:Z;
              log_epoch := Some 2%:Z |} in
  let criterion (n : nat) : rat := (n%:R - 2) ^+ 2 in
  let r := train id criterion id succn a 0%N in
  trajectories r.1
  = map (fun e => net_at succn 0%N e)
      (filter (fun e : nat => (log_every a %| (e : int))%Z)
         (iota 0 (optimized a r.2))).
Proof. by apply: train_trajectories. Defined.

(** ** Contraction of the vector field of [forward] *)

Section Contraction.

Variable R : realFieldType.
Variables dim_out dim_x dim_v : nat.

Local Notation CREN := (CREN R 2 dim_out dim_x dim_v).

Implicit Type self : CREN.

(** Bilinear forms on rows, and their transposition. *)
Lemma formT n m (a : 'rV[R]_n) (M : 'M[R]_(n, m)) (b : 'rV[R]_m) :
  (a *m M *m b^T) 0 0 = (b *m M^T *m a^T) 0 0.
Proof. by rewrite -[LHS]trmxE !trmx_mul trmxK mulmxA. Qed.

Lemma formDr n m (a : 'rV[R]_n) (M N : 'M[R]_(n, m)) (b : 'rV[R]_m) :
  (a *m (M + N) *m b^T) 0 0 = (a *m M *m b^T) 0 0 + (a *m N *m b^T) 0 0.
Proof. by rewrite mulmxDr mulmxDl addmxE. Qed.

Lemma formN n m (a : 'rV[R]_n) (M : 'M[R]_(n, m)) (b : 'rV[R]_m) :
  (a *m (- M) *m b^T) 0 0 = - (a *m M *m b^T) 0 0.
Proof. by rewrite mulmxN mulNmx oppmxE. Qed.

Lemma formZ n m (c : R) (a : 'rV[R]_n) (M : 'M[R]_(n, m)) (b : 'rV[R]_m) :
  (a *m (c *: M) *m b^T) 0 0 = c * (a *m M *m b^T) 0 0.
Proof. by rewrite -scalemxAr -scalemxAl scalemxE. Qed.

Lemma sqnorm_row_mx n q (x : 'rV[R]_n) (w : 'rV[R]_q) :
  sqnorm (row_mx x w) = sqnorm x + sqnorm w.
Proof. by rewrite -!mulmx_tr_sqnorm tr_row_mx mul_row_col addmxE. Qed.

(** The quadratic form of [H] on a row [(x, w)], by blocks. *)
Lemma local_H_form self (x : 'rV[R]_dim_x) (w : 'rV[R]_dim_v) :
  (row_mx x w *m local_H self *m (row_mx x w)^T) 0 0
  = (x *m local_H1 self *m x^T) 0 0 + 2 * (x *m local_H2 self *m w^T) 0 0
    + (w *m local_H4 self *m w^T) 0 0.
Proof.
rewrite -{1}local_H_block mul_row_block tr_row_mx mul_row_col addmxE.
rewrite !mulmxDl !addmxE (formT w (local_H3 self) x) local_H3_tr trmxK.
by ring.
Qed.

(** The form of [Lambda] is a weighted sum with positive weights. *)
Lemma local_Lambda_form self (w y : 'rV[R]_dim_v) :
  (w *m local_Lambda self *m y^T) 0 0
  = \sum_i local_Lambda self i i * (w 0 i * y 0 i).
Proof.
rewrite {1}local_LambdaE mul_mx_diag mxE; apply: eq_bigr => i _.
by rewrite local_Lambda_diag !mxE; ring.
Qed.

Lemma updated_act self : act (updated self) = act self.
Proof. by case: self. Qed.

(** The feedback vector of a single state is the activation of its
    pre-activation row. *)
Lemma forward_w_preact self (xs : 'rV[R]_dim_x) :
  (0 < dim_v)%N ->
  (forall i j : 'I_dim_v, (i <= j)%N -> D11 self i j = 0) ->
  exists2 w, forward_w self (zeros R 1 2) xs = Some w
  & forall i, w 0 i
      = act self ((xs *m (C1 self)^T + w *m (D11 self)^T
                   + (ones R 1 1 *m (zeros R 1 2 *m (D12 self)^T)
                      + ones R 1 1 *m (bv self)^T)) 0 i).
Proof.
move=> q0 tri; have [w fw hw] := forward_w_rows self (zeros R 1 2) xs q0.
exists w => // i; rewrite hw -implicit_rhs_rows // /implicit_rhs.
by rewrite [LHS]mxE addrA.
Qed.

(** X20: after [update_model_param] with [epsilon > 0], for an activation
    with slope between 0 and 1 (as [tanh] has), the vector field of
    [forward] is contracting in the metric [P]: for two states [x1], [x2]
    with derivatives [f1], [f2], the derivative of
    [V = (x1 - x2) P (x1 - x2)^T] along the flow,
    [(f1 - f2) P (x1 - x2)^T + (x1 - x2) P (f1 - f2)^T], is at most
    [- contraction_rate_lb V - epsilon |x1 - x2|^2]. *)
Theorem forward_contracting (s : CREN) (t : R) (x1 x2 : 'rV[R]_dim_x) :
  0 < epsilon s -> (0 < dim_v)%N ->
  (forall a b, 0 <= (act s a - act s b) * (a - b - (act s a - act s b))) ->
  let self := (update_model_param s).2 in
  exists f1 f2,
    [/\ forward self t x1 = Some f1, forward self t x2 = Some f2
      & ((f1 - f2) *m P self *m (x1 - x2)^T) 0 0
        + ((x1 - x2) *m P self *m (f1 - f2)^T) 0 0
        <= - (contraction_rate_lb s
              * ((x1 - x2) *m P self *m (x1 - x2)^T) 0 0)
           - epsilon s * sqnorm (x1 - x2)].
Proof.
move=> e0 q0 hact; rewrite /= update_model_param_state //.
set self := updated s.
have tri (i j : 'I_dim_v) : (i <= j)%N -> D11 self i j = 0.
  by move=> ij; rewrite updated_D11_entry // ltnNge ij.
have [w1 fw1 hw1] := forward_w_preact x1 q0 tri.
have [w2 fw2 hw2] := forward_w_preact x2 q0 tri.
rewrite (forward_of_w t fw1) (forward_of_w t fw2).
do 2!eexists; split; [by [] | by [] |].
set x := x1 - x2; pose w := w1 - w2.
set df := _ - _.
have dfE : df = x *m (A self)^T + w *m (B1 self)^T.
  rewrite /df /x /w !mulmxBl.
  move: (x1 *m _) (x2 *m _) (w1 *m _) (w2 *m _) (ones _ _ _ *m _).
  by move=> a a' b b' k; apply/matrixP => i j; rewrite !mxE; ring.
(* the derivative of V *)
have PA := updated_PA e0; have PB := updated_PB1 e0.
have Psym : (P self)^T = P self by rewrite updated_P local_P_sym.
have dV : (df *m P self *m x^T) 0 0 + (x *m P self *m df^T) 0 0
          = - ((x *m local_H1 s *m x^T) 0 0
               + contraction_rate_lb s * (x *m P self *m x^T) 0 0)
            - 2 * ((x *m local_H2 s *m w^T) 0 0
                   + (x *m Chi s *m w^T) 0 0).
  rewrite (formT df) Psym dfE linearD /= !trmx_mul !trmxK mulmxDr addmxE.
  rewrite !mulmxA -[x *m P self *m A self]mulmxA PA.
  rewrite -[x *m P self *m B1 self]mulmxA PB.
  have Y2 : (x *m local_Y s *m x^T) 0 0 + (x *m local_Y s *m x^T) 0 0
            = - ((x *m local_H1 s *m x^T) 0 0
                 + contraction_rate_lb s * (x *m P self *m x^T) 0 0).
    rewrite {2}(formT x (local_Y s) x) -formDr local_Y_sum formN formDr.
    by rewrite formZ updated_P.
  have -> : (x *m local_Z s *m w^T) 0 0
            = - (x *m local_H2 s *m w^T) 0 0 - (x *m Chi s *m w^T) 0 0.
    by rewrite /local_Z formDr !formN.
  move: Y2; move: ((x *m local_Y s *m x^T) 0 0) ((x *m local_H1 s *m x^T) 0 0).
  move: (contraction_rate_lb s * _) ((x *m local_H2 s *m w^T) 0 0).
  move: ((x *m Chi s *m w^T) 0 0).
  by move=> ch h2 cp a1 yy Y2; lra.
(* the sector condition of the activation *)
pose dv := x *m (C1 self)^T + w *m (D11 self)^T.
have S0 : 0 <= (w *m local_Lambda s *m (dv - w)^T) 0 0.
  rewrite local_Lambda_form; apply: sumr_ge0 => i _.
  apply: mulr_ge0; first exact/ltW/local_Lambda_gt0.
  have -> : (dv - w) 0 i = dv 0 i - w 0 i by rewrite addmxE oppmxE.
  have dvE (k : 'rV[R]_dim_v) :
      dv 0 i = (x1 *m (C1 self)^T + w1 *m (D11 self)^T + k) 0 i
               - (x2 *m (C1 self)^T + w2 *m (D11 self)^T + k) 0 i.
    rewrite /dv /x /w !mulmxBl.
    move: (x1 *m _) (x2 *m _) (w1 *m _) (w2 *m _) => a a' b b'.
    by rewrite !mxE; ring.
  have -> : w 0 i = w1 0 i - w2 0 i by rewrite /w addmxE oppmxE.
  rewrite hw1 hw2 updated_act.
  rewrite (dvE (ones R 1 1 *m (zeros R 1 2 *m (D12 self)^T)
                + ones R 1 1 *m (bv self)^T)).
  exact: hact.
have SE : (w *m local_Lambda s *m (dv - w)^T) 0 0
          = (x *m Chi s *m w^T) 0 0
            - (w *m tril (local_H4 s) (-1) *m w^T) 0 0
            - (w *m local_Lambda s *m w^T) 0 0.
  have -> : (dv - w)^T = C1 self *m x^T + D11 self *m w^T - w^T.
    by rewrite /dv (linearB trmx) (linearD trmx) /= !trmx_mul !trmxK.
  rewrite mulmxBr mulmxDr !mulmxA.
  rewrite -[w *m _ *m C1 self]mulmxA (updated_LC1 e0).
  rewrite -[w *m _ *m D11 self]mulmxA (updated_LD11 e0).
  rewrite 2!addmxE oppmxE formN -(formT x (Chi s) w).
  by [].
(* the matrix inequality *)
have H4E : (w *m local_H4 s *m w^T) 0 0
           = 2 * (w *m local_Lambda s *m w^T) 0 0
             + 2 * (w *m tril (local_H4 s) (-1) *m w^T) 0 0.
  rewrite {1}local_H4_split !formDr formZ.
  rewrite -(formT w (tril (local_H4 s) (-1)) w).
  by ring.
have := local_H_quad s (row_mx x w).
rewrite local_H_form sqnorm_row_mx mulrDr => LMI.
have nw : 0 <= epsilon s * sqnorm w.
  by rewrite mulr_ge0 ?sqnorm_ge0 // ltW.
rewrite dV; move: S0; rewrite SE; move: LMI; rewrite H4E updated_P.
move: nw.
move: (contraction_rate_lb s * _) (epsilon s * sqnorm w).
move: (epsilon s * sqnorm x) ((x *m local_H1 s *m x^T) 0 0).
move: ((x *m local_H2 s *m w^T) 0 0) ((x *m Chi s *m w^T) 0 0).
move: ((w *m local_Lambda s *m w^T) 0 0).
move: ((w *m tril (local_H4 s) (-1) *m w^T) 0 0).
by move=> tw lw ch h2 a1 enx enw cp; lra.
Qed.

End Contraction.

Lemma forward_contracting_witness :
  let s := example (R := rat) id in
  let self := (update_model_param s).2 in
  let x1 : 'rV[rat]_2 := const_mx 1 in
  let x2 : 'rV[rat]_2 := 0 in
  exists f1 f2,
    [/\ forward self 0 x1 = Some f1, forward self 0 x2 = Some f2
      & ((f1 - f2) *m P self *m (x1 - x2)^T) 0 0
        + ((x1 - x2) *m P self *m (f1 - f2)^T) 0 0
        <= - (contraction_rate_lb s
              * ((x1 - x2) *m P self *m (x1 - x2)^T) 0 0)
           - epsilon s * sqnorm (x1 - x2)].
Proof.
apply: forward_contracting => // a b.
by rewrite /= subrr mulr0.
Defined.

(** ** The script [train.py] *)

Section TrainScriptFacts.

Variables dataloader model ren_data : Type.
Variable lasa_expert : option dataloader.
Variable robomimic_expert : seq DatasetKeys -> option dataloader.
Variable sanity_check : dataloader -> option unit.
Variable new_CREN new_DREN : option model.
Variable train_ren_model : model -> dataloader -> bool -> option ren_data.
Variable save : ren_data -> option unit.

Local Notation main :=
  (main lasa_expert robomimic_expert sanity_check new_CREN new_DREN
     train_ren_model save).

(** X21: the [NotImplementedError] of line 111 is never raised: whatever
    the arguments and whatever the collaborators do, a run that reaches
    the test of line 108 has passed the test of lines 26 and 37 on the
    same [args.expert]. *)
Theorem main_expert_check_dead (a : script_args) :
  if main a is inl ExpertNotImplemented then false else true.
Proof.
rewrite /main /set_expert /define_model.
case: (String.eqb (expert a) "lasa") => /=.
  case: lasa_expert => //= dl; case: (sanity_check dl) => //= _.
  case: (String.eqb (model_type a) "continuous") => /=.
    case: new_CREN => //= m; case: (train_ren_model _ _ _) => //= rd.
    by case: (save rd).
  case: (String.eqb (model_type a) "discrete") => //=.
  case: new_DREN => //= m; case: (train_ren_model _ _ _) => //= rd.
  by case: (save rd).
case: (String.eqb (expert a) "robomimic") => //=.
case: (dataset_keys_of _) => //= keys.
case: (robomimic_expert keys) => //= dl; case: (sanity_check dl) => //= _.
case: (String.eqb (model_type a) "continuous") => /=.
  case: new_CREN => //= m; case: (train_ren_model _ _ _) => //= rd.
  by case: (save rd).
case: (String.eqb (model_type a) "discrete") => //=.
case: new_DREN => //= m; case: (train_ren_model _ _ _) => //= rd.
by case: (save rd).
Qed.

(** X22: the script ends with [NameError] on [dataset_keys] exactly when
    [args.expert] is "robomimic" and [args.dataset_key] is none of the
    four keys of lines 38 to 45; no collaborator has been called then. *)
Theorem main_name_error (a : script_args) :
  (if main a is inl NameError_dataset_keys then true else false)
  = String.eqb (expert a) "robomimic"
    && ~~ has (String.eqb (dataset_key a))
            [:: "eef_pos"; "eef_pos_ori"; "joint_pos"; "joint_pos_vel"]%string.
Proof.
rewrite /main /set_expert /define_model /dataset_keys_of /=.
case: (String.eqb_spec (expert a) "lasa") => [->|_] /=.
  case: lasa_expert => //= dl; case: (sanity_check dl) => //= _.
  case: (String.eqb (model_type a) "continuous") => /=.
    case: new_CREN => //= m; case: (train_ren_model _ _ _) => //= rd.
    by case: (save rd).
  case: (String.eqb (model_type a) "discrete") => //=.
  case: new_DREN => //= m; case: (train_ren_model _ _ _) => //= rd.
  by case: (save rd).
case: (String.eqb (expert a) "robomimic") => //=.
have rest keys :
    (if and_then
          (and_then (call (robomimic_expert keys))
             (fun dl => and_then (call (sanity_check dl)) (fun=> inr dl)))
          (fun dl =>
           and_then
             (if String.eqb (model_type a) "continuous" then call new_CREN
              else if String.eqb (model_type a) "discrete"
                   then call new_DREN else inl WrongModelType)
             (fun m =>
              and_then
                (call (train_ren_model m dl (String.eqb (loss a) "mse")))
                (fun rd => call (save rd))))
     is inl NameError_dataset_keys then true else false) = false.
  case: (robomimic_expert keys) => //= dl; case: (sanity_check dl) => //= _.
  case: (String.eqb (model_type a) "continuous") => /=.
    case: new_CREN => //= m; case: (train_ren_model _ _ _) => //= rd.
    by case: (save rd).
  case: (String.eqb (model_type a) "discrete") => //=.
  case: new_DREN => //= m; case: (train_ren_model _ _ _) => //= rd.
  by case: (save rd).
by do 4![case: (String.eqb (dataset_key a) _) => /=; first exact: rest].
Qed.

End TrainScriptFacts.
